(** * go-watcher: chunking, hashing, diffing and debouncing of a watched file

    A shallow embedding of [main.go].  The routing-table file is read line by
    line with a [bufio.Scanner]; every line starting with [Destination:] opens
    a new chunk, which is hashed and stored in [rt.Chunks] under its
    destination when the next chunk starts or the input ends.
    [DetectChanges] reloads the file into a temporary table and compares the
    hashes; [FileWatcher.handleChange] debounces file-system events with a
    single-shot timer. *)

From Stdlib Require Import ZArith String Ascii List Lia.
From stdpp Require Import gmap strings pretty list fin_maps.

Local Open Scope string_scope.
Local Open Scope list_scope.
Local Open Scope Z_scope.

(** ** Machine integers *)

(** [lineNum], [StartLine] and [EndLine] are [int64]: arithmetic wraps
    around modulo [2^64] into the range [-2^63 .. 2^63 - 1]. *)
Definition wrap64 (z : Z) : Z := (z + 2 ^ 63) mod 2 ^ 64 - 2 ^ 63.

(** ** Data model *)

(** [type Chunk struct].  [Data] is a byte slice, modelled as a string of
    bytes. *)
Record Chunk := mkChunk {
  StartLine : Z;
  EndLine : Z;
  Hash : string;
  Data : string;
  Destination : string
}.

(** [type DataTable struct]; the mutex is not modelled, every operation
    below runs as one atomic step. *)
Record DataTable := mkDataTable {
  FilePath : string;
  Chunks : gmap string Chunk
}.

(** [NewDataTable] *)
Definition NewDataTable (filePath : string) : DataTable :=
  {| FilePath := filePath; Chunks := ∅ |}.

(** The errors built by the three [fmt.Errorf] calls; [cause] stands for the
    wrapped error of the operating system or the scanner. *)
Inductive error :=
| FailedToOpen (cause : string)
| ErrorReading (cause : string)
| FailedToReload (inner : error).

(** What [os.Open] followed by a [bufio.Scanner] delivers for a path: either
    the open fails, or the scanner yields some lines (without their line
    terminators) and then stops, at the end of the file ([None]) or on a read
    error ([Some cause], reported by [scanner.Err]). *)
Inductive Source :=
| OpenFails (cause : string)
| Scanned (lines : list string) (scanErr : option string).

Definition FileSystem := string → Source.

(** The line feed, the separator of [strings.Join(chunkLines, "\n")]. *)
Definition LF : string := String "010" EmptyString.

(** The record-start marker of [strings.HasPrefix(line, "Destination:")]. *)
Definition marker : string := "Destination:".

Definition isMarker (line : string) : bool := String.prefix marker line.

(** ** The debounced notifier *)

Module Notifier.

(** The bits of [fsnotify.Op] the watch loop tests. *)
Definition Create : Z := 1.
Definition Write : Z := 2.

(** An [fsnotify.Event], with the instant (in nanoseconds) at which the
    watch loop receives it. *)
Record Event := mkEvent {
  Name : string;
  Op : Z;
  arrival : Z
}.

(** A timer of the Go runtime created by [time.AfterFunc]: it is [armed]
    until it fires or is stopped. *)
Record Timer := mkTimer {
  deadline : Z;
  armed : bool
}.

(** [type FileWatcher struct].  [timer] is the [*time.Timer] handle, an index
    into the timers of the runtime, [None] for [nil]. *)
Record FileWatcher := mkFileWatcher {
  filePath : string;
  debounce : Z;
  lastEvent : Z;
  timer : option nat
}.

(** The watcher, the timers of the runtime, and the instants at which
    [onChange] has been called so far. *)
Record World := mkWorld {
  fw : FileWatcher;
  timers : list Timer;
  calls : list Z
}.

(** [NewFileWatcher] *)
Definition NewFileWatcher (path : string) (d : Z) : World :=
  {| fw := {| filePath := path; debounce := d; lastEvent := 0;
              timer := None |};
     timers := [];
     calls := [] |}.

(** [Timer.Stop]: a timer that has fired or was stopped stays as it is. *)
Definition stop (t : Timer) : Timer :=
  {| deadline := deadline t; armed := false |}.

(** [handleChange] called at the instant [now]: stop the previous timer, if
    there is one, and arm a new one.  [time.AfterFunc] with a duration that
    is not positive fires at once. *)
Definition handleChange (now : Z) (w : World) : World :=
  let ts :=
    match timer (fw w) with
    | Some id => alter stop id (timers w)
    | None => timers w
    end in
  {| fw := {| filePath := filePath (fw w);
              debounce := debounce (fw w);
              lastEvent := lastEvent (fw w);
              timer := Some (length ts) |};
     timers := ts ++ [{| deadline := now + Z.max 0 (debounce (fw w));
                         armed := true |}];
     calls := calls w |}.

(** A timer fires when it is armed and its deadline has been reached;
    [None] as the limit lets all the time pass. *)
Definition due (limit : option Z) (t : Timer) : bool :=
  armed t &&
  match limit with
  | Some now => deadline t <=? now
  | None => true
  end.

(** The runtime lets the time pass up to [limit]: each due timer fires once
    and runs the function given to [time.AfterFunc], which records
    [lastEvent] and calls [onChange]. *)
Definition expire (limit : option Z) (w : World) : World :=
  let fired := filter (λ t, due limit t = true) (timers w) in
  {| fw := {| filePath := filePath (fw w);
              debounce := debounce (fw w);
              lastEvent := from_option deadline (lastEvent (fw w)) (last fired);
              timer := timer (fw w) |};
     timers := (λ t, if due limit t then stop t else t) <$> timers w;
     calls := calls w ++ (deadline <$> fired) |}.

(** The test of the watch loop: the event is for our file and is a write or
    a create. *)
Definition relevant (f : FileWatcher) (e : Event) : bool :=
  String.eqb (Name e) (filePath f) &&
  ((Z.land (Op e) Write =? Write) || (Z.land (Op e) Create =? Create)).

(** One iteration of [watch] for an event of [fw.watcher.Events]: the timers
    due before the event have fired. *)
Definition watchEvent (w : World) (e : Event) : World :=
  let w' := expire (Some (arrival e)) w in
  if relevant (fw w') e then handleChange (arrival e) w' else w'.

(** The watch loop over a sequence of events, after which the time passes
    without further events. *)
Definition watch (events : list Event) (w : World) : World :=
  expire None (fold_left watchEvent events w).

(** Consecutive events arrive less than [d] apart. *)
Definition burst (d : Z) (events : list Event) : Prop :=
  ∀ i a b, events !! i = Some a → events !! S i = Some b →
    arrival a ≤ arrival b < arrival a + d.

(** A burst is pending at [t]: every timer but the last has been stopped or
    has fired, the last one is armed for [t] plus the interval, and
    [onChange] has not been called. *)
Definition pending (path : string) (d t : Z) (w : World) : Prop :=
  calls w = [] ∧ filePath (fw w) = path ∧ debounce (fw w) = d ∧
  ∃ ts, Forall (λ x, armed x = false) ts ∧
        timers w = ts ++ [{| deadline := t + Z.max 0 d; armed := true |}] ∧
        timer (fw w) = Some (length ts).

(** [Close]: stop the timer the watcher holds, if any.  The watcher of the
    file system is closed as well, so that the watch loop receives no
    further event. *)
Definition Close (w : World) : World :=
  {| fw := fw w;
     timers := match timer (fw w) with
               | Some id => alter stop id (timers w)
               | None => timers w
               end;
     calls := calls w |}.

(** The watcher has called [onChange] at the instants [cs] and is idle
    ([None]: no timer is armed) or pending ([Some T]: the timer it holds is
    armed for [T], and no other timer is armed). *)
Definition tracks (path : string) (d : Z) (pend : option Z) (cs : list Z)
    (w : World) : Prop :=
  calls w = cs ∧ filePath (fw w) = path ∧ debounce (fw w) = d ∧
  ∃ ts, Forall (λ x, armed x = false) ts ∧
        match pend with
        | Some T =>
            timers w = ts ++ [{| deadline := T; armed := true |}] ∧
            timer (fw w) = Some (length ts)
        | None => timers w = ts
        end.

(** The debouncer as a machine with two states, idle ([None]) or pending
    with a deadline: the calls it makes on a sequence of events and in the
    time after them. *)
Fixpoint debouncer (f : FileWatcher) (pend : option Z) (events : list Event)
  : list Z :=
  match events with
  | [] => option_list pend
  | e :: rest =>
      let fired :=
        match pend with
        | Some T => T <=? arrival e
        | None => false
        end in
      (if fired then option_list pend else []) ++
      debouncer f
        (if relevant f e then Some (arrival e + Z.max 0 (debounce f))
         else if fired then None else pend)
        rest
  end.

(** The instants [D] after each event that is followed by no other event
    for at least [D]. *)
Fixpoint quietEnds (D : Z) (events : list Event) : list Z :=
  match events with
  | [] => []
  | e :: rest =>
      match rest with
      | [] => [arrival e + D]
      | e' :: _ =>
          (if arrival e + D <=? arrival e' then [arrival e + D] else [])
          ++ quietEnds D rest
      end
  end.

(** The events are in the order of their arrival. *)
Fixpoint inOrder (events : list Event) : Prop :=
  match events with
  | [] => True
  | e :: rest => Forall (λ x, arrival e ≤ arrival x) rest ∧ inOrder rest
  end.

(** Every event comes at least [D] after the one before. *)
Definition spaced (D : Z) (events : list Event) : Prop :=
  ∀ i a b, events !! i = Some a → events !! S i = Some b →
    arrival a + D ≤ arrival b.

End Notifier.

(** ** Sample inputs *)

(** [strings.Fields] on ASCII white space, and a stand-in for the digest
    that is injective. *)
Definition asciiFields : string → list string := String.words.
Definition plainDigest : string → string := λ data, data.

Definition routesV1 : list string :=
  ["# routing table";
   "Destination: 10.0.0.0/8";
   "     NextHop: 10.0.0.1";
   "Destination: 0.0.0.0/0";
   "     NextHop: 192.168.1.1";
   ""].

Definition routesV2 : list string :=
  ["Destination: 10.0.0.0/8";
   "     NextHop: 10.0.0.2";
   "Destination: 172.16.0.0/12";
   "     NextHop: 10.0.0.1"].

Definition clashingKeys : list string :=
  ["Destination:"; "Destination: unknown_1"].

Definition fileOf (lines : list string) : FileSystem :=
  λ _, Scanned lines None.

Definition brokenFile : FileSystem :=
  λ _, Scanned ["Destination: 10.0.0.0/8"; "     NextHop: 10.0.0.1"]
         (Some "input/output error").

Definition missingFile : FileSystem :=
  λ _, OpenFails "no such file or directory".

Definition staleChunk : Chunk :=
  {| StartLine := 1; EndLine := 2;
     Hash := "stale"; Data := "stale";
     Destination := "192.168.0.0/16" |}.

Definition staleTable : DataTable :=
  {| FilePath := "routes.txt";
     Chunks := {[ "192.168.0.0/16" := staleChunk ]} |}.

Definition burstEvents : list Notifier.Event :=
  [Notifier.mkEvent "routes.txt" 2 0;
   Notifier.mkEvent "routes.txt" 2 100;
   Notifier.mkEvent "routes.txt" 3 450].

Definition noRoutes : list string :=
  ["# routing table"; ""; "Routing Tables: Public"].

Definition bareMarkers : list string :=
  ["Destination:"; "     NextHop: 10.0.0.1"; "Destination:"].

Definition mixedEvents : list Notifier.Event :=
  [Notifier.mkEvent "routes.txt" 2 0;
   Notifier.mkEvent "other.txt" 2 100;
   Notifier.mkEvent "routes.txt" 4 300;
   Notifier.mkEvent "routes.txt" 1 700;
   Notifier.mkEvent "routes.txt" 2 900].

Definition spacedEvents : list Notifier.Event :=
  [Notifier.mkEvent "routes.txt" 2 0;
   Notifier.mkEvent "routes.txt" 1 500;
   Notifier.mkEvent "routes.txt" 2 1700].

(** ** The data table *)

Section Table.

(** The library functions the program calls: the hexadecimal SHA-256 digest
    behind [hashChunk], [strings.Fields], and the order in which [range]
    enumerates a map, which Go leaves unspecified. *)
Variable sha256hex : string → string.
Variable Fields : string → list string.
Variable range : gmap string Chunk → list (string * Chunk).
Hypothesis range_perm : ∀ m, range m ≡ₚ map_to_list m.

(** [hashChunk] *)
Definition hashChunk (data : string) : string := sha256hex data.

(** The local variables of [LoadDataTable]. *)
Record Locals := mkLocals {
  currentChunk : option Chunk;
  chunkLines : list string;
  lineNum : Z;
  currentDestination : string
}.

Definition initLocals : Locals :=
  {| currentChunk := None; chunkLines := []; lineNum := 0;
     currentDestination := "" |}.

(** The chunk completed by the block
    [if currentChunk != nil && len(chunkLines) > 0 { ... }], if any. *)
Definition finishChunk (cur : option Chunk) (lines : list string) (endLine : Z)
  : option Chunk :=
  match cur with
  | Some c =>
      if (0 <? length lines)%nat then
        let chunkData := String.concat LF lines in
        Some {| StartLine := StartLine c;
                EndLine := endLine;
                Hash := hashChunk chunkData;
                Data := chunkData;
                Destination := Destination c |}
      else None
  | None => None
  end.

(** [rt.Chunks[currentChunk.Destination] = currentChunk] *)
Definition store (m : gmap string Chunk) (c : Chunk) : gmap string Chunk :=
  <[Destination c := c]> m.

Definition saveChunk (cur : option Chunk) (lines : list string) (endLine : Z)
    (m : gmap string Chunk) : gmap string Chunk :=
  match finishChunk cur lines endLine with
  | Some c => store m c
  | None => m
  end.

(** Key extraction of a marker line found at line [n]. *)
Definition destinationOf (line : string) (n : Z) : string :=
  let parts := Fields line in
  if (2 <=? length parts)%nat then nth 1 parts ""
  else "unknown_" +:+ pretty n.

(** One iteration of [for scanner.Scan() { ... }]. *)
Definition scanLine (s : Locals * gmap string Chunk) (line : string)
  : Locals * gmap string Chunk :=
  let '(l, m) := s in
  let n := wrap64 (lineNum l + 1) in
  if isMarker line then
    let m' := saveChunk (currentChunk l) (chunkLines l) (wrap64 (n - 1)) m in
    let dest := destinationOf line n in
    ({| currentChunk :=
          Some {| StartLine := n; EndLine := 0; Hash := ""; Data := "";
                  Destination := dest |};
        chunkLines := [line];
        lineNum := n;
        currentDestination := dest |}, m')
  else
    match currentChunk l with
    | Some _ =>
        ({| currentChunk := currentChunk l;
            chunkLines := chunkLines l ++ [line];
            lineNum := n;
            currentDestination := currentDestination l |}, m)
    | None =>
        ({| currentChunk := None;
            chunkLines := chunkLines l;
            lineNum := n;
            currentDestination := currentDestination l |}, m)
    end.

(** The loop followed by "Save last chunk". *)
Definition scanAll (lines : list string) (m : gmap string Chunk)
  : gmap string Chunk :=
  let '(l, m') := fold_left scanLine lines (initLocals, m) in
  saveChunk (currentChunk l) (chunkLines l) (lineNum l) m'.

(** [LoadDataTable]: the table after the call and the returned error
    ([None] for [nil]).  The map [rt.Chunks] is updated in place while the
    lines are scanned; [scanner.Err] is only looked at after the loop and
    after the last chunk has been saved. *)
Definition LoadDataTable (fs : FileSystem) (rt : DataTable)
  : DataTable * option error :=
  match fs (FilePath rt) with
  | OpenFails cause => (rt, Some (FailedToOpen cause))
  | Scanned lines scanErr =>
      let rt' := {| FilePath := FilePath rt;
                    Chunks := scanAll lines (Chunks rt) |} in
      match scanErr with
      | Some cause => (rt', Some (ErrorReading cause))
      | None => (rt', None)
      end
  end.

(** [oldChunks := make(map[string]*Chunk)] filled by ranging over
    [rt.Chunks]. *)
Definition copyChunks (m : gmap string Chunk) : gmap string Chunk :=
  fold_left (λ acc e, <[e.1 := e.2]> acc) (range m) ∅.

(** Body of "Check existing chunks for changes". *)
Definition checkExisting (newChunks : gmap string Chunk)
    (changed : list string) (e : string * Chunk) : list string :=
  let '(dest, oldChunk) := e in
  match newChunks !! dest with
  | None => changed ++ [dest]
  | Some newChunk =>
      if decide (Hash newChunk ≠ Hash oldChunk) then changed ++ [dest]
      else changed
  end.

(** Body of "Check for new routes". *)
Definition checkNew (oldChunks : gmap string Chunk)
    (changed : list string) (e : string * Chunk) : list string :=
  match oldChunks !! e.1 with
  | None => changed ++ [e.1]
  | Some _ => changed
  end.

(** The two comparison loops of [DetectChanges]. *)
Definition compareChunks (oldChunks newChunks : gmap string Chunk)
  : list string :=
  fold_left (checkNew oldChunks) (range newChunks)
    (fold_left (checkExisting newChunks) (range oldChunks) []).

(** [DetectChanges]: the table after the call, the [changed] slice and the
    error. *)
Definition DetectChanges (fs : FileSystem) (rt : DataTable)
  : DataTable * (list string * option error) :=
  let oldChunks := copyChunks (Chunks rt) in
  let tempRT := NewDataTable (FilePath rt) in
  match LoadDataTable fs tempRT with
  | (_, Some err) => (rt, ([], Some (FailedToReload err)))
  | (tempRT', None) =>
      let changed := compareChunks oldChunks (Chunks tempRT') in
      ({| FilePath := FilePath rt; Chunks := Chunks tempRT' |},
       (changed, None))
  end.


(** *** The sequence of stored chunks *)

(** The locals after one iteration. *)
Definition nextLocals (l : Locals) (line : string) : Locals :=
  (scanLine (l, ∅) line).1.

(** The chunk stored in the iteration for [line], if any. *)
Definition closedAt (l : Locals) (line : string) : list Chunk :=
  if isMarker line then
    option_list (finishChunk (currentChunk l) (chunkLines l)
                   (wrap64 (wrap64 (lineNum l + 1) - 1)))
  else [].

(** The chunks stored by the loop and by "Save last chunk", in the order in
    which they are stored. *)
Fixpoint recordsFrom (l : Locals) (lines : list string) : list Chunk :=
  match lines with
  | [] => option_list (finishChunk (currentChunk l) (chunkLines l) (lineNum l))
  | line :: rest => closedAt l line ++ recordsFrom (nextLocals l line) rest
  end.

Definition records (lines : list string) : list Chunk :=
  recordsFrom initLocals lines.

(** The snapshot of one complete parse: the table a fresh [DataTable] holds
    after scanning [lines]. *)
Definition snapshot (lines : list string) : gmap string Chunk :=
  scanAll lines ∅.

(** The marker lines of the input with their 0-based positions, counted
    from [k]. *)
Fixpoint markerLinesFrom (k : nat) (lines : list string)
  : list (nat * string) :=
  match lines with
  | [] => []
  | line :: rest =>
      (if isMarker line then [(k, line)] else []) ++ markerLinesFrom (S k) rest
  end.

Definition markerLines (lines : list string) : list (nat * string) :=
  markerLinesFrom 0 lines.

(** The start line and the key a marker line at position [i] gives its
    chunk. *)
Definition headerOf (e : nat * string) : Z * string :=
  let n := wrap64 (Z.of_nat e.1 + 1) in (n, destinationOf e.2 n).


(** *** Records as text *)

Fixpoint hasLF (s : string) : bool :=
  match s with
  | EmptyString => false
  | String a s' => Ascii.eqb a "010" || hasLF s'
  end.

(** The lines of a raw content: the inverse of joining with line feeds. *)
Fixpoint splitLF (s : string) : list string :=
  match s with
  | EmptyString => [EmptyString]
  | String a s' =>
      if Ascii.eqb a "010" then EmptyString :: splitLF s'
      else match splitLF s' with
           | [] => [String a EmptyString]
           | x :: xs => String a x :: xs
           end
  end.

(** The text of a sequence of records: their raw contents one after the
    other, as the lines a scanner reads from it. *)
Definition recordsAsText (recs : list Chunk) : list string :=
  concat ((λ c, splitLF (Data c)) <$> recs).

(** The same record [p] lines further up. *)
Definition shiftChunk (p : Z) (c : Chunk) : Chunk :=
  {| StartLine := wrap64 (StartLine c - p);
     EndLine := wrap64 (EndLine c - p);
     Hash := Hash c;
     Data := Data c;
     Destination := Destination c |}.


(** The number of lines before the first marker line. *)
Fixpoint preamble (lines : list string) : nat :=
  match lines with
  | [] => 0
  | line :: rest => if isMarker line then 0 else S (preamble rest)
  end.

(** *** Changed keys *)

(** A key is changed between two snapshots when it is present on one side
    only, or on both sides with different digests. *)
Definition changedKey (old new : gmap string Chunk) (k : string) : Prop :=
  match old !! k, new !! k with
  | Some o, Some n => Hash o ≠ Hash n
  | Some _, None => True
  | None, Some _ => True
  | None, None => False
  end.

(** The source cannot be read: the open fails or the scanner ends on an
    error. *)
Definition unreadable (src : Source) : Prop :=
  match src with
  | OpenFails _ => True
  | Scanned _ (Some _) => True
  | Scanned _ None => False
  end.

(** *** The records as blocks of lines *)

(** The lines before the first marker line, and the blocks after them: a
    block is a marker line with the lines up to the next marker line. *)
Fixpoint splitBlocks (lines : list string)
  : list string * list (list string) :=
  match lines with
  | [] => ([], [])
  | line :: rest =>
      let '(pre, bs) := splitBlocks rest in
      if isMarker line then ([], (line :: pre) :: bs) else (line :: pre, bs)
  end.

Definition blocks (lines : list string) : list (list string) :=
  (splitBlocks lines).2.

(** The chunk of a block that comes after [k] lines of input. *)
Definition blockChunk (k : Z) (b : list string) : Chunk :=
  {| StartLine := wrap64 (k + 1);
     EndLine := wrap64 (k + Z.of_nat (length b));
     Hash := hashChunk (String.concat LF b);
     Data := String.concat LF b;
     Destination := destinationOf (hd "" b) (wrap64 (k + 1)) |}.

Fixpoint blockChunks (k : Z) (bs : list (list string)) : list Chunk :=
  match bs with
  | [] => []
  | b :: bs' => blockChunk k b :: blockChunks (k + Z.of_nat (length b)) bs'
  end.

(** The chunks cover the lines [first + 1 .. last] without gap or overlap,
    each of them at least one line long. *)
Fixpoint tiles (first last : Z) (recs : list Chunk) : Prop :=
  match recs with
  | [] => first = last
  | c :: rest =>
      StartLine c = first + 1 ∧ StartLine c ≤ EndLine c ∧
      tiles (EndLine c) last rest
  end.

(** Every entry is filed under the destination of its chunk, and the hash
    of a chunk is the digest of its data. *)
Definition consistent (m : gmap string Chunk) : Prop :=
  ∀ k c, m !! k = Some c →
    Destination c = k ∧ Hash c = hashChunk (Data c).

(** *** The callback of [main] *)

(** The message of an error as [%v] prints it; [fmt.Errorf] puts the
    message of the wrapped error in the place of [%w]. *)
Fixpoint errorString (e : error) : string :=
  match e with
  | FailedToOpen cause => "failed to open file: " +:+ cause
  | ErrorReading cause => "error reading file: " +:+ cause
  | FailedToReload inner =>
      "failed to reload routing table: " +:+ errorString inner
  end.

(** What [LoadDataTable] prints when it succeeds. *)
Definition loadedLine (rt : DataTable) : string :=
  "Loaded " +:+ pretty (size (Chunks rt)) +:+ " route chunks from "
  +:+ FilePath rt +:+ LF.

(** The lines printed for the changed keys; [elapsed] is the duration of
    the detection as [%v] prints it. *)
Definition reportChanged (elapsed : string) (changed : list string)
  : list string :=
  if (length changed =? 0)%nat then
    ["No changes detected (checked in " +:+ elapsed +:+ ")" +:+ LF]
  else
    let maxShow :=
      if (length changed <? 10)%nat then length changed else 10%nat in
    ["Found " +:+ pretty (length changed)
     +:+ " changed routes (detected in " +:+ elapsed +:+ "):" +:+ LF]
    ++ ((λ i, "  - " +:+ nth i changed "" +:+ LF) <$> seq 0 maxShow)
    ++ (if (maxShow <? length changed)%nat then
          ["  ... and " +:+ pretty (length changed - maxShow)%nat
           +:+ " more" +:+ LF]
        else []).

(** The function [onChange] of [main]: the table after the call and what is
    written to the standard output, print by print. *)
Definition onChange (elapsed : string) (fs : FileSystem) (rt : DataTable)
  : DataTable * list string :=
  let banner := LF +:+ "[File Change Detected] Detecting changes..." +:+ LF in
  match DetectChanges fs rt with
  | (rt', (_, Some err)) =>
      (rt', [banner; "Error detecting changes: " +:+ errorString err +:+ LF])
  | (rt', (changed, None)) =>
      (rt', [banner; loadedLine rt'] ++ reportChanged elapsed changed)
  end.


(** ** Facts *)

(** *** Wrap-around *)

Lemma wrap64_add_l (a b : Z) : wrap64 (wrap64 a + b) = wrap64 (a + b).
Proof.
  unfold wrap64. f_equal.
  replace ((a + 2 ^ 63) mod 2 ^ 64 - 2 ^ 63 + b + 2 ^ 63)
    with ((a + 2 ^ 63) mod 2 ^ 64 + b) by lia.
  rewrite Zplus_mod_idemp_l. f_equal. lia.
Qed.

Lemma wrap64_sub_l (a b : Z) : wrap64 (wrap64 a - b) = wrap64 (a - b).
Proof. apply (wrap64_add_l a (- b)). Qed.


Lemma wrap64_idemp (a : Z) : wrap64 (wrap64 a) = wrap64 a.
Proof.
  transitivity (wrap64 (wrap64 a + 0)); [f_equal; lia|].
  rewrite wrap64_add_l. f_equal. lia.
Qed.

Lemma wrap64_congr_add (a b c : Z) :
  wrap64 a = wrap64 b → wrap64 (a + c) = wrap64 (b + c).
Proof. intros H. by rewrite <- (wrap64_add_l a), H, wrap64_add_l. Qed.

Lemma wrap64_small (z : Z) : - 2 ^ 63 ≤ z < 2 ^ 63 → wrap64 z = z.
Proof. intros Hz. unfold wrap64. rewrite Z.mod_small; lia. Qed.

(** *** The loop stores the chunks of [records], in order *)

Lemma scanLine_locals (l : Locals) (m : gmap string Chunk) (line : string) :
  (scanLine (l, m) line).1 = nextLocals l line.
Proof.
  unfold nextLocals, scanLine.
  destruct (isMarker line); [done|]. by destruct (currentChunk l).
Qed.

Lemma scanLine_chunks (l : Locals) (m : gmap string Chunk) (line : string) :
  (scanLine (l, m) line).2 = fold_left store (closedAt l line) m.
Proof.
  unfold scanLine, closedAt, saveChunk.
  destruct (isMarker line); simpl.
  - by destruct (finishChunk _ _ _).
  - by destruct (currentChunk l).
Qed.

Lemma scanLoop_records (lines : list string) (l : Locals)
    (m : gmap string Chunk) :
  (let '(l', m') := fold_left scanLine lines (l, m) in
   saveChunk (currentChunk l') (chunkLines l') (lineNum l') m')
  = fold_left store (recordsFrom l lines) m.
Proof.
  revert l m.
  induction lines as [|line rest IH]; intros l m; cbn [fold_left recordsFrom].
  - unfold saveChunk. by destruct (finishChunk _ _ _).
  - rewrite fold_left_app, <- scanLine_chunks, <- (scanLine_locals l m).
    rewrite <- IH. by destruct (scanLine (l, m) line).
Qed.

Lemma scanAll_records (lines : list string) (m : gmap string Chunk) :
  scanAll lines m = fold_left store (records lines) m.
Proof. apply scanLoop_records. Qed.


(** *** Lookups after storing a sequence of chunks *)

Lemma fold_store_lookup (recs : list Chunk) (m : gmap string Chunk)
    (k : string) :
  fold_left store recs m !! k =
  match last (filter (λ c, Destination c = k) recs) with
  | Some c => Some c
  | None => m !! k
  end.
Proof using Type.
  revert m. induction recs as [|c recs IH]; intros m; [done|].
  cbn [fold_left]. rewrite IH. unfold store.
  destruct (decide (Destination c = k)) as [Hk|Hk].
  - rewrite filter_cons_True by done.
    destruct (filter _ recs) as [|c' recs'] eqn:Hf; simpl.
    + by rewrite Hk, lookup_insert_eq.
    + destruct (last (c' :: recs')) eqn:E; [done|]. by apply last_None in E.
  - rewrite filter_cons_False by done.
    destruct (last _); [done|]. by rewrite lookup_insert_ne.
Qed.

Lemma fold_store_frame (recs : list Chunk) (m : gmap string Chunk)
    (k : string) :
  k ∉ Destination <$> recs → fold_left store recs m !! k = m !! k.
Proof using Type.
  intros Hk. rewrite fold_store_lookup.
  destruct (last _) as [c|] eqn:Hl; [|done].
  apply last_Some_elem_of, list_elem_of_filter in Hl as [Hc Hin].
  destruct Hk. apply list_elem_of_fmap. by exists c.
Qed.


(** *** Ranging over a map *)

Lemma range_NoDup_keys (m : gmap string Chunk) : NoDup (range m).*1.
Proof using range_perm. rewrite (range_perm m). apply NoDup_fst_map_to_list. Qed.

Lemma range_lookup (m : gmap string Chunk) (k : string) (c : Chunk) :
  (k, c) ∈ range m ↔ m !! k = Some c.
Proof using range_perm. rewrite (range_perm m). apply elem_of_map_to_list. Qed.

Lemma copyChunks_id (m : gmap string Chunk) : copyChunks m = m.
Proof using range_perm.
  unfold copyChunks.
  rewrite <- (list_to_map_to_list m) at 2.
  rewrite <- fold_left_rev_right.
  transitivity (list_to_map (rev (range m)) : gmap string Chunk).
  - generalize (rev (range m)). intros l. induction l as [|[k c] l IH]; [done|].
    simpl. by rewrite IH.
  - apply list_to_map_proper.
    + rewrite <- (Permutation_rev (range m)). apply range_NoDup_keys.
    + by rewrite <- (Permutation_rev (range m)).
Qed.


(** *** The two comparison loops *)

Lemma checkExisting_elem (new : gmap string Chunk)
    (l : list (string * Chunk)) (acc : list string) (k : string) :
  k ∈ fold_left (checkExisting new) l acc ↔
  k ∈ acc ∨ ∃ o, (k, o) ∈ l ∧
    match new !! k with Some n => Hash n ≠ Hash o | None => True end.
Proof using Type.
  revert acc. induction l as [|[d o] l IH]; intros acc; cbn [fold_left].
  - split; [by left|].
    intros [?|(? & Hin & _)]; [done|by apply elem_of_nil in Hin].
  - rewrite IH. unfold checkExisting. split.
    + intros [Hacc|(o' & Hin & Hch)].
      * destruct (new !! d) as [n|] eqn:Hd.
        -- case_decide as Hne.
           ++ apply elem_of_app in Hacc as [?| ->%list_elem_of_singleton];
                [by left|].
              right. exists o. rewrite Hd. split; [left|done].
           ++ by left.
        -- apply elem_of_app in Hacc as [?| ->%list_elem_of_singleton];
             [by left|].
           right. exists o. rewrite Hd. split; [left|done].
      * right. exists o'. split; [by right|done].
    + intros [Hacc|(o' & Hin & Hch)].
      * left. destruct (new !! d); [case_decide|];
          rewrite ?elem_of_app; auto.
      * apply elem_of_cons in Hin as [[= -> ->]|Hin].
        -- left. destruct (new !! d); [case_decide|];
             rewrite ?elem_of_app, ?list_elem_of_singleton; auto.
           by destruct Hch.
        -- right. by exists o'.
Qed.

Lemma checkExisting_NoDup (new : gmap string Chunk)
    (l : list (string * Chunk)) (acc : list string) :
  NoDup (acc ++ l.*1) → NoDup (fold_left (checkExisting new) l acc).
Proof using Type.
  revert acc. induction l as [|[d o] l IH]; intros acc Hnd; cbn [fold_left].
  - by rewrite app_nil_r in Hnd.
  - apply IH. cbn [fmap list_fmap fst] in Hnd.
    unfold checkExisting.
    assert (NoDup ((acc ++ [d]) ++ l.*1)) as Hnd'.
    { by rewrite <- app_assoc. }
    assert (NoDup (acc ++ l.*1)) as Hnd''.
    { apply NoDup_app in Hnd as (? & Hd & [_ ?]%NoDup_cons).
      apply NoDup_app. split_and!; [done| |done].
      intros x Hx Hin. apply (Hd x Hx). by right. }
    destruct (new !! d); [case_decide|]; done.
Qed.

Lemma checkNew_elem (old : gmap string Chunk)
    (l : list (string * Chunk)) (acc : list string) (k : string) :
  k ∈ fold_left (checkNew old) l acc ↔
  k ∈ acc ∨ (k ∈ l.*1 ∧ old !! k = None).
Proof using Type.
  revert acc. induction l as [|[d n] l IH]; intros acc; cbn [fold_left].
  - split; [by left|].
    intros [?|[Hin _]]; [done|by apply elem_of_nil in Hin].
  - rewrite IH. unfold checkNew. cbn [fst fmap list_fmap].
    destruct (old !! d) eqn:Hd.
    + split; [intros [?|[? ?]]; [by left|right; split; [by right|done]]|].
      intros [?|[Hin Hk]]; [by left|].
      apply elem_of_cons in Hin as [->|?]; [congruence|]. by right.
    + rewrite elem_of_app, list_elem_of_singleton. split.
      * intros [[?| ->]|[? ?]]; [by left| |].
        -- right. split; [left|done].
        -- right. split; [by right|done].
      * intros [?|[Hin Hk]]; [by left; left|].
        apply elem_of_cons in Hin as [->|?]; [by left; right|by right].
Qed.

Lemma checkNew_NoDup (old : gmap string Chunk)
    (l : list (string * Chunk)) (acc : list string) :
  NoDup acc → NoDup l.*1 →
  (∀ k, k ∈ acc → k ∈ l.*1 → is_Some (old !! k)) →
  NoDup (fold_left (checkNew old) l acc).
Proof using Type.
  revert acc. induction l as [|[d n] l IH]; intros acc Hacc Hl Hdis;
    cbn [fold_left]; [done|].
  cbn [fmap list_fmap fst] in Hl, Hdis. apply NoDup_cons in Hl as [Hd Hl].
  unfold checkNew. cbn [fst]. destruct (old !! d) eqn:Hold.
  - apply IH; [done..|]. intros k ? ?. apply Hdis; [done|by right].
  - apply IH; [|done|].
    + apply NoDup_app. split_and!; [done| |apply NoDup_singleton].
      intros k Hk ->%list_elem_of_singleton.
      destruct (Hdis d Hk) as [? ?]; [left|congruence].
    + intros k [?| ->%list_elem_of_singleton]%elem_of_app Hin;
        [apply Hdis; [done|by right]|done].
Qed.


(** *** Loading *)

Lemma LoadDataTable_scanned (fs : FileSystem) (rt : DataTable)
    (lines : list string) (scanErr : option string) :
  fs (FilePath rt) = Scanned lines scanErr →
  LoadDataTable fs rt =
    ({| FilePath := FilePath rt;
        Chunks := fold_left store (records lines) (Chunks rt) |},
     ErrorReading <$> scanErr).
Proof.
  intros Hfs. unfold LoadDataTable. rewrite Hfs, scanAll_records.
  by destruct scanErr.
Qed.

Lemma LoadDataTable_fresh (fs : FileSystem) (path : string)
    (lines : list string) (scanErr : option string) :
  fs path = Scanned lines scanErr →
  LoadDataTable fs (NewDataTable path) =
    ({| FilePath := path; Chunks := snapshot lines |},
     ErrorReading <$> scanErr).
Proof.
  intros Hfs. rewrite (LoadDataTable_scanned _ _ lines scanErr) by done.
  unfold snapshot. by rewrite scanAll_records.
Qed.

(** C1, as amended.  When the source cannot be read, [LoadDataTable] returns
    an error.  If the file cannot be opened, the table is exactly what it was
    before the call.  If the scanner stops on a read error, the records read
    before the error have been stored in the chunk map, in order, on top of
    the entries it had; entries under keys that none of these records has are
    what they were. *)
Theorem LoadDataTable_unreadable (fs : FileSystem) (rt : DataTable) :
  unreadable (fs (FilePath rt)) →
  (∃ err, (LoadDataTable fs rt).2 = Some err) ∧
  (∀ cause, fs (FilePath rt) = OpenFails cause →
     (LoadDataTable fs rt).1 = rt) ∧
  (∀ lines cause, fs (FilePath rt) = Scanned lines (Some cause) →
     Chunks (LoadDataTable fs rt).1
       = fold_left store (records lines) (Chunks rt) ∧
     ∀ k, k ∉ Destination <$> records lines →
       Chunks (LoadDataTable fs rt).1 !! k = Chunks rt !! k).
Proof.
  intros Hun. split_and!.
  - unfold LoadDataTable. destruct (fs (FilePath rt)) as [cause|lines [cause|]].
    + by eexists.
    + by eexists.
    + done.
  - intros cause Hfs. unfold LoadDataTable. by rewrite Hfs.
  - intros lines cause Hfs.
    rewrite (LoadDataTable_scanned _ _ _ _ Hfs). cbn [fst Chunks].
    split; [done|]. apply fold_store_frame.
Qed.

(** C10.  [LoadDataTable] on a table that already has entries merges the
    records of the current parse into the chunk map: the map is the old one
    with the parsed records stored on top, and an entry whose key no parsed
    record has is left as it was. *)
Theorem LoadDataTable_merges (fs : FileSystem) (rt : DataTable)
    (lines : list string) (scanErr : option string) :
  fs (FilePath rt) = Scanned lines scanErr →
  Chunks (LoadDataTable fs rt).1
    = fold_left store (records lines) (Chunks rt) ∧
  ∀ k, k ∉ Destination <$> records lines →
    Chunks (LoadDataTable fs rt).1 !! k = Chunks rt !! k.
Proof.
  intros Hfs. rewrite (LoadDataTable_scanned _ _ _ _ Hfs). cbn [fst Chunks].
  split; [done|]. apply fold_store_frame.
Qed.


(** *** Detecting changes *)

Lemma DetectChanges_readable (fs : FileSystem) (rt : DataTable)
    (lines : list string) :
  fs (FilePath rt) = Scanned lines None →
  DetectChanges fs rt =
    ({| FilePath := FilePath rt; Chunks := snapshot lines |},
     (compareChunks (Chunks rt) (snapshot lines), None)).
Proof.
  intros Hfs. unfold DetectChanges.
  rewrite (LoadDataTable_fresh fs _ lines None) by done.
  cbn. by rewrite copyChunks_id.
Qed.

(** C4.  When the source cannot be read, [DetectChanges] returns an error
    and leaves the table, and with it the current snapshot, as it was. *)
Theorem DetectChanges_unreadable (fs : FileSystem) (rt : DataTable) :
  unreadable (fs (FilePath rt)) →
  ∃ err, DetectChanges fs rt = (rt, ([], Some (FailedToReload err))).
Proof.
  intros Hun. unfold DetectChanges, LoadDataTable. cbn [NewDataTable FilePath].
  destruct (fs (FilePath rt)) as [cause|lines [cause|]]; [by eexists..|done].
Qed.

(** C7.  After a successful [DetectChanges] the chunk map of the table is
    the snapshot freshly parsed from the source, whatever the list of changed
    keys is. *)
Theorem DetectChanges_publishes (fs : FileSystem) (rt rt' : DataTable)
    (changed : list string) :
  DetectChanges fs rt = (rt', (changed, None)) →
  Chunks rt' = Chunks (LoadDataTable fs (NewDataTable (FilePath rt))).1 ∧
  ∃ lines, fs (FilePath rt) = Scanned lines None ∧
           Chunks rt' = snapshot lines.
Proof.
  unfold DetectChanges.
  destruct (fs (FilePath rt)) as [cause|lines scanErr] eqn:Hfs.
  - unfold LoadDataTable. cbn [NewDataTable FilePath]. by rewrite Hfs.
  - rewrite (LoadDataTable_fresh fs _ lines scanErr) by done.
    destruct scanErr as [cause|]; cbn; [done|].
    intros [= <- _]. cbn. eauto.
Qed.

Lemma compareChunks_NoDup (old new : gmap string Chunk) :
  NoDup (compareChunks old new).
Proof using range_perm.
  unfold compareChunks. apply checkNew_NoDup.
  - apply checkExisting_NoDup. apply range_NoDup_keys.
  - apply range_NoDup_keys.
  - intros k Hk _. apply checkExisting_elem in Hk as [Hk|(o & Hin & _)].
    + by apply elem_of_nil in Hk.
    + apply range_lookup in Hin. by exists o.
Qed.

Lemma compareChunks_elem (old new : gmap string Chunk) (k : string) :
  k ∈ compareChunks old new ↔ changedKey old new k.
Proof using range_perm.
  unfold compareChunks. rewrite checkNew_elem, checkExisting_elem.
  unfold changedKey. split.
  - intros [[Hk|(o & Hin & Hch)]|[Hin Hold]].
    + by apply elem_of_nil in Hk.
    + apply range_lookup in Hin. rewrite Hin. by destruct (new !! k).
    + apply list_elem_of_fmap in Hin as ([k' n] & -> & Hin).
      apply range_lookup in Hin. cbn [fst] in *. by rewrite Hold, Hin.
  - destruct (old !! k) as [o|] eqn:Hold.
    + intros Hch. left. right. exists o. split; [by apply range_lookup|].
      by destruct (new !! k).
    + destruct (new !! k) as [n|] eqn:Hnew; [|done].
      intros _. right. split; [|done].
      apply list_elem_of_fmap. exists (k, n). split; [done|].
      by apply range_lookup.
Qed.

(** C2.  The list of changed keys has no key twice, and a key is in it
    exactly when it is present in one of the two snapshots only, or in both
    with different digests. *)
Theorem compareChunks_changed (old new : gmap string Chunk) :
  NoDup (compareChunks old new) ∧
  ∀ k, k ∈ compareChunks old new ↔ changedKey old new k.
Proof using range_perm.
  split; [apply compareChunks_NoDup|apply compareChunks_elem].
Qed.

(** C9.  Two snapshots with the same keys and, key by key, the same digests
    have no changed key; in particular a snapshot compared with itself. *)
Theorem compareChunks_same (old new : gmap string Chunk) :
  (∀ k, Hash <$> old !! k = Hash <$> new !! k) →
  compareChunks old new = [] ∧ compareChunks old old = [].
Proof using range_perm.
  assert (∀ a b : gmap string Chunk,
            (∀ k, Hash <$> a !! k = Hash <$> b !! k) →
            compareChunks a b = []) as Hgen.
  { intros a b Hab. apply elem_of_nil_inv. intros k Hk.
    apply compareChunks_elem in Hk. unfold changedKey in Hk.
    specialize (Hab k).
    destruct (a !! k), (b !! k); simplify_eq/=; done. }
  intros Hsame. split; [by apply Hgen|by apply Hgen].
Qed.


(** *** Start lines and keys of the stored chunks *)

Lemma nextLocals_marker (l : Locals) (line : string) :
  isMarker line = true →
  nextLocals l line =
    let n := wrap64 (lineNum l + 1) in
    {| currentChunk :=
         Some {| StartLine := n; EndLine := 0; Hash := ""; Data := "";
                 Destination := destinationOf line n |};
       chunkLines := [line];
       lineNum := n;
       currentDestination := destinationOf line n |}.
Proof. intros Hm. unfold nextLocals, scanLine. by rewrite Hm. Qed.

Lemma nextLocals_body (l : Locals) (line : string) :
  isMarker line = false →
  nextLocals l line =
    {| currentChunk := currentChunk l;
       chunkLines := match currentChunk l with
                     | Some _ => chunkLines l ++ [line]
                     | None => chunkLines l
                     end;
       lineNum := wrap64 (lineNum l + 1);
       currentDestination := currentDestination l |}.
Proof.
  intros Hm. unfold nextLocals, scanLine. rewrite Hm.
  by destruct (currentChunk l).
Qed.

Lemma finishChunk_open (c : Chunk) (ls : list string) (endLine : Z) :
  ls ≠ [] →
  finishChunk (Some c) ls endLine =
    Some {| StartLine := StartLine c; EndLine := endLine;
            Hash := hashChunk (String.concat LF ls);
            Data := String.concat LF ls;
            Destination := Destination c |}.
Proof. intros Hne. unfold finishChunk. by destruct ls. Qed.

Lemma recordsFrom_headers (lines : list string) (l : Locals) (k : nat) :
  (is_Some (currentChunk l) → chunkLines l ≠ []) →
  wrap64 (lineNum l) = wrap64 (Z.of_nat k) →
  (λ c, (StartLine c, Destination c)) <$> recordsFrom l lines =
  (match currentChunk l with
   | Some c => [(StartLine c, Destination c)]
   | None => []
   end ++ (headerOf <$> markerLinesFrom k lines))%list.
Proof.
  revert l k. induction lines as [|line rest IH]; intros l k Hne Hk;
    cbn [recordsFrom markerLinesFrom].
  - destruct (currentChunk l) as [c|] eqn:Hc; [|done].
    rewrite finishChunk_open by eauto. done.
  - rewrite fmap_app. destruct (isMarker line) eqn:Hm.
    + rewrite (IH (nextLocals l line) (S k)).
      * rewrite nextLocals_marker by done. unfold closedAt. rewrite Hm.
        cbn [currentChunk StartLine Destination].
        assert (wrap64 (lineNum l + 1) = wrap64 (Z.of_nat k + 1)) as Hn.
        { by apply wrap64_congr_add. }
        rewrite Hn. unfold headerOf. cbn [fst snd fmap list_fmap app].
        destruct (currentChunk l) as [c|] eqn:Hc; [|done].
        rewrite finishChunk_open by eauto. done.
      * rewrite nextLocals_marker by done. done.
      * rewrite nextLocals_marker by done. cbn [lineNum].
        rewrite wrap64_idemp, Nat2Z.inj_succ. by apply wrap64_congr_add.
    + unfold closedAt. rewrite Hm. cbn [fmap list_fmap app].
      rewrite (IH (nextLocals l line) (S k)).
      * rewrite nextLocals_body by done. done.
      * rewrite nextLocals_body by done. cbn [currentChunk chunkLines].
        intros Hs. destruct (currentChunk l); [|by destruct Hs].
        by destruct (chunkLines l).
      * rewrite nextLocals_body by done. cbn [lineNum].
        rewrite wrap64_idemp, Nat2Z.inj_succ. by apply wrap64_congr_add.
Qed.

Lemma records_headers (lines : list string) :
  (λ c, (StartLine c, Destination c)) <$> records lines
  = headerOf <$> markerLines lines.
Proof.
  apply (recordsFrom_headers lines initLocals 0); [|done].
  intros [c Hc]. discriminate Hc.
Qed.

Lemma markerLinesFrom_bound (lines : list string) (k i : nat)
    (line : string) :
  (i, line) ∈ markerLinesFrom k lines → (k ≤ i < k + length lines)%nat.
Proof.
  revert k. induction lines as [|x rest IH]; intros k; cbn [markerLinesFrom].
  - intros Hin. by apply elem_of_nil in Hin.
  - intros [Hin|Hin]%elem_of_app.
    + destruct (isMarker x); [|by apply elem_of_nil in Hin].
      apply list_elem_of_singleton in Hin as [= -> _]. cbn [length]. lia.
    + apply IH in Hin. cbn [length]. lia.
Qed.

(** Below [2^63] lines nothing wraps: the chunk of the marker line at
    0-based position [i] starts at line [i + 1]. *)
Lemma records_start_line (lines : list string) :
  Z.of_nat (length lines) < 2 ^ 63 →
  StartLine <$> records lines
  = (λ e, Z.of_nat e.1 + 1) <$> markerLines lines.
Proof.
  intros Hlen.
  transitivity (fst <$> ((λ c, (StartLine c, Destination c))
                           <$> records lines)).
  { by rewrite <- list_fmap_compose. }
  rewrite records_headers, <- list_fmap_compose.
  apply Forall_fmap_ext, Forall_forall. intros [i line] Hin.
  apply markerLinesFrom_bound in Hin.
  cbn. apply wrap64_small. lia.
Qed.

Lemma prefix_app (p s : string) : String.prefix p (p +:+ s) = true.
Proof.
  induction p as [|a p IH]; [by destruct s|].
  change (String a p +:+ s) with (String a (p +:+ s)). cbn [String.prefix].
  by destruct (ascii_dec a a).
Qed.

(** C5, as amended.  The chunks of a parse are those of the marker lines, in
    order; the chunk of the marker line at 0-based position [i] starts at
    line [i + 1], and when that line has fewer than two tokens its key is
    [unknown_] followed by the start line in decimal.  Such a synthetic key
    differs from the key of every chunk whose marker line has a second token
    that does not itself begin with [unknown_]. *)
Theorem synthetic_keys (lines : list string) :
  Forall2 (λ e c,
      StartLine c = wrap64 (Z.of_nat e.1 + 1) ∧
      Destination c =
        if (2 <=? length (Fields e.2))%nat then nth 1 (Fields e.2) ""
        else "unknown_" +:+ pretty (StartLine c))
    (markerLines lines) (records lines) ∧
  ∀ i j e e' c c',
    markerLines lines !! i = Some e → records lines !! i = Some c →
    markerLines lines !! j = Some e' → records lines !! j = Some c' →
    (length (Fields e.2) < 2)%nat →
    (2 ≤ length (Fields e'.2))%nat →
    String.prefix "unknown_" (Destination c') = false →
    Destination c ≠ Destination c'.
Proof.
  assert (Forall2 (λ e c,
      StartLine c = wrap64 (Z.of_nat e.1 + 1) ∧
      Destination c =
        if (2 <=? length (Fields e.2))%nat then nth 1 (Fields e.2) ""
        else "unknown_" +:+ pretty (StartLine c))
    (markerLines lines) (records lines)) as Hall.
  { pose proof (records_headers lines) as Hh.
    apply list_eq_Forall2 in Hh. rewrite Forall2_fmap in Hh.
    apply Forall2_flip. eapply Forall2_impl; [exact Hh|].
    intros c e [= Hs Hd]. split; [done|]. rewrite Hd, Hs. done. }
  split; [done|].
  intros i j e e' c c' He Hc He' Hc' Hshort Hlong Hpre Heq.
  destruct (Forall2_lookup_lr _ _ _ i e c Hall He Hc) as [_ Hd].
  apply Nat.ltb_lt in Hshort. rewrite Nat.ltb_antisym in Hshort.
  apply negb_true_iff in Hshort. rewrite Hshort in Hd.
  rewrite <- Heq, Hd, prefix_app in Hpre. done.
Qed.


(** *** Parsing the text of the records again *)

Lemma splitLF_line (s : string) : hasLF s = false → splitLF s = [s].
Proof.
  induction s as [|a s IH]; [done|]. cbn [hasLF splitLF].
  intros [Ha Hs]%orb_false_iff. rewrite Ha, (IH Hs). done.
Qed.

Lemma splitLF_app (s t : string) :
  hasLF s = false → splitLF (s +:+ LF +:+ t) = s :: splitLF t.
Proof.
  induction s as [|a s IH]; [done|].
  change (String a s +:+ LF +:+ t) with (String a (s +:+ LF +:+ t)).
  cbn [hasLF splitLF]. intros [Ha Hs]%orb_false_iff.
  rewrite Ha, (IH Hs). done.
Qed.

Lemma splitLF_join (ls : list string) :
  ls ≠ [] → Forall (λ s, hasLF s = false) ls →
  splitLF (String.concat LF ls) = ls.
Proof.
  induction ls as [|x ls IH]; [done|]. intros _ [Hx Hls]%Forall_cons.
  destruct ls as [|y ls]; [by apply splitLF_line|].
  change (String.concat LF (x :: y :: ls))
    with (x +:+ LF +:+ String.concat LF (y :: ls)).
  rewrite splitLF_app by done. f_equal. by apply IH.
Qed.

Lemma recordsAsText_app (a b : list Chunk) :
  recordsAsText (a ++ b) = (recordsAsText a ++ recordsAsText b)%list.
Proof. unfold recordsAsText. by rewrite fmap_app, concat_app. Qed.

Lemma recordsAsText_finish (c : Chunk) (ls : list string) (endLine : Z) :
  ls ≠ [] → Forall (λ s, hasLF s = false) ls →
  recordsAsText (option_list (finishChunk (Some c) ls endLine)) = ls.
Proof.
  intros Hne Hlf. rewrite finishChunk_open by done.
  unfold recordsAsText. simpl. by rewrite app_nil_r, splitLF_join.
Qed.

Lemma recordsAsText_from (lines : list string) (l : Locals) :
  (is_Some (currentChunk l) → chunkLines l ≠ []) →
  Forall (λ s, hasLF s = false) (chunkLines l ++ lines) →
  recordsAsText (recordsFrom l lines) =
  match currentChunk l with
  | Some _ => (chunkLines l ++ lines)%list
  | None => drop (preamble lines) lines
  end.
Proof.
  revert l. induction lines as [|line rest IH]; intros l Hne Hlf;
    cbn [recordsFrom preamble].
  - rewrite app_nil_r in Hlf |- *.
    destruct (currentChunk l) as [c|] eqn:Hc; [|done].
    apply recordsAsText_finish; eauto.
  - rewrite recordsAsText_app.
    apply Forall_app in Hlf as [Hcl [Hline Hrest]%Forall_cons].
    destruct (isMarker line) eqn:Hm.
    + rewrite IH.
      * rewrite nextLocals_marker by done. cbn [currentChunk chunkLines].
        unfold closedAt. rewrite Hm.
        destruct (currentChunk l) as [c|] eqn:Hc; [|done].
        rewrite recordsAsText_finish by eauto. done.
      * rewrite nextLocals_marker by done. done.
      * rewrite nextLocals_marker by done. cbn [chunkLines].
        by apply Forall_cons.
    + unfold closedAt. rewrite Hm.
      change (recordsAsText []) with (@nil string). cbn [app].
      rewrite IH.
      * rewrite nextLocals_body by done. cbn [currentChunk chunkLines].
        destruct (currentChunk l); [|done]. by rewrite <- app_assoc.
      * rewrite nextLocals_body by done. cbn [currentChunk chunkLines].
        intros Hs. destruct (currentChunk l); [|by destruct Hs].
        by destruct (chunkLines l).
      * rewrite nextLocals_body by done. cbn [chunkLines].
        destruct (currentChunk l).
        -- rewrite <- app_assoc. apply Forall_app. split; [done|].
           by apply Forall_cons.
        -- by apply Forall_app.
Qed.





(** *** The records are the chunks of the blocks *)

Lemma recordsFrom_blocks (lines : list string) (l : Locals) (k : Z) :
  (is_Some (currentChunk l) → chunkLines l ≠ []) →
  lineNum l = wrap64 k →
  recordsFrom l lines =
    match currentChunk l with
    | Some c =>
        [{| StartLine := StartLine c;
            EndLine := wrap64 (k + Z.of_nat (length (splitBlocks lines).1));
            Hash := hashChunk
                      (String.concat LF (chunkLines l ++ (splitBlocks lines).1));
            Data := String.concat LF (chunkLines l ++ (splitBlocks lines).1);
            Destination := Destination c |}]
    | None => []
    end ++
    blockChunks (k + Z.of_nat (length (splitBlocks lines).1))
      (splitBlocks lines).2.
Proof.
  revert l k. induction lines as [|line rest IH]; intros l k Hne Hk;
    cbn [recordsFrom splitBlocks].
  - cbn [fst snd length blockChunks]. rewrite !app_nil_r, Z.add_0_r.
    destruct (currentChunk l) as [c|] eqn:Hc; [|done].
    rewrite finishChunk_open by eauto. by rewrite Hk.
  - destruct (splitBlocks rest) as [pre bs] eqn:Hsplit.
    destruct (isMarker line) eqn:Hm; cbn [fst snd].
    + rewrite (IH (nextLocals l line) (k + 1)).
      * rewrite nextLocals_marker by done. cbv zeta.
        cbn [currentChunk chunkLines StartLine Destination fst snd
             length blockChunks].
        unfold closedAt. rewrite Hm, Hk, wrap64_add_l.
        rewrite !Z.add_0_r, app_nil_r.
        replace (wrap64 (wrap64 (k + 1) - 1)) with (wrap64 k)
          by (rewrite wrap64_sub_l; f_equal; lia).
        unfold blockChunk. cbn [hd length app].
        replace (k + 1 + Z.of_nat (length pre))
          with (k + Z.of_nat (S (length pre))) by lia.
        destruct (currentChunk l) as [c|] eqn:Hc; [|done].
        rewrite finishChunk_open by eauto. done.
      * rewrite nextLocals_marker by done. done.
      * rewrite nextLocals_marker by done. cbn [lineNum].
        by rewrite Hk, wrap64_add_l.
    + unfold closedAt. rewrite Hm. cbn [app].
      rewrite (IH (nextLocals l line) (k + 1)).
      * rewrite nextLocals_body by done.
        cbn [currentChunk chunkLines fst snd length].
        replace (k + 1 + Z.of_nat (length pre))
          with (k + Z.of_nat (S (length pre))) by lia.
        destruct (currentChunk l) as [c|]; [|done].
        by rewrite <- app_assoc.
      * rewrite nextLocals_body by done. cbn [currentChunk chunkLines].
        intros Hs. destruct (currentChunk l); [|by destruct Hs].
        by destruct (chunkLines l).
      * rewrite nextLocals_body by done. cbn [lineNum].
        by rewrite Hk, wrap64_add_l.
Qed.

Lemma splitBlocks_preamble (lines : list string) :
  length (splitBlocks lines).1 = preamble lines.
Proof.
  induction lines as [|line rest IH]; [done|]. cbn [splitBlocks preamble].
  destruct (splitBlocks rest) as [pre bs]. cbn [fst] in IH.
  destruct (isMarker line); cbn [fst length]; [done|]. by rewrite IH.
Qed.

Lemma records_blockChunks (lines : list string) :
  records lines = blockChunks (Z.of_nat (preamble lines)) (blocks lines).
Proof.
  unfold records, blocks.
  rewrite (recordsFrom_blocks lines initLocals 0); cbn [initLocals lineNum].
  - cbn [currentChunk app]. by rewrite splitBlocks_preamble, Z.add_0_l.
  - intros [c Hc]. discriminate Hc.
  - done.
Qed.

Lemma splitBlocks_take (lines : list string) :
  Forall (λ x, isMarker x = false) (splitBlocks lines).1 ∧
  (splitBlocks lines).1 = take (preamble lines) lines.
Proof.
  induction lines as [|x rest [IH1 IH2]]; [by split|].
  cbn [splitBlocks preamble]. destruct (splitBlocks rest) as [pre bs].
  cbn [fst] in IH1, IH2.
  destruct (isMarker x) eqn:Hx; cbn [fst take]; [by split|].
  split; [by apply Forall_cons|by rewrite <- IH2].
Qed.

Lemma blocks_shape (lines : list string) :
  concat (blocks lines) = drop (preamble lines) lines ∧
  Forall (λ b, ∃ line rest, b = line :: rest ∧ isMarker line = true ∧
                            Forall (λ x, isMarker x = false) rest)
    (blocks lines).
Proof.
  unfold blocks.
  induction lines as [|line rest [IHc IHb]]; [by split|].
  cbn [splitBlocks preamble].
  destruct (splitBlocks_take rest) as [Hnm Htake].
  destruct (splitBlocks rest) as [pre bs]. cbn [fst snd] in IHc, IHb, Hnm, Htake.
  destruct (isMarker line) eqn:Hm; cbn [snd concat drop].
  - split.
    + rewrite IHc, Htake. cbn [app]. by rewrite take_drop.
    + apply Forall_cons. split; [|done]. by exists line, pre.
  - by split.
Qed.

(** X1.  The records of a parse are the chunks of the blocks of the input:
    the lines before the first marker line are dropped, every marker line
    opens a block that runs up to the next marker line or to the end, and
    the chunk of a block has the line numbers of its first and last line,
    the block joined with line feeds as data, the digest of that data as
    hash, and the key of its marker line. *)
Theorem records_are_blocks (lines : list string) :
  records lines = blockChunks (Z.of_nat (preamble lines)) (blocks lines) ∧
  concat (blocks lines) = drop (preamble lines) lines ∧
  Forall (λ b, ∃ line rest, b = line :: rest ∧ isMarker line = true ∧
                            Forall (λ x, isMarker x = false) rest)
    (blocks lines).
Proof. split; [apply records_blockChunks|apply blocks_shape]. Qed.

(** *** Line numbers of the records *)

Lemma preamble_le (lines : list string) : (preamble lines ≤ length lines)%nat.
Proof.
  induction lines as [|x rest IH]; [done|]. cbn [preamble length].
  destruct (isMarker x); lia.
Qed.

Lemma blockChunks_tiles (bs : list (list string)) (k : Z) :
  0 ≤ k → Forall (λ b, b ≠ []) bs →
  k + Z.of_nat (length (concat bs)) < 2 ^ 63 →
  tiles k (k + Z.of_nat (length (concat bs))) (blockChunks k bs).
Proof.
  revert k. induction bs as [|b bs IH]; intros k Hk Hne Hlt;
    cbn [blockChunks tiles concat].
  - cbn [length]. lia.
  - apply Forall_cons in Hne as [Hb Hne].
    cbn [concat] in Hlt. rewrite length_app in Hlt |- *.
    assert (0 < Z.of_nat (length b)) by (destruct b; [done|cbn [length]; lia]).
    cbn [blockChunk StartLine EndLine].
    rewrite !wrap64_small by lia. split_and!; [done|lia|].
    replace (k + Z.of_nat (length b + length (concat bs)))
      with (k + Z.of_nat (length b) + Z.of_nat (length (concat bs))) by lia.
    apply IH; [lia|done|lia].
Qed.

Lemma blocks_nonempty (lines : list string) :
  Forall (λ b, b ≠ []) (blocks lines).
Proof.
  eapply Forall_impl; [apply blocks_shape|].
  intros b (line & rest & -> & _). done.
Qed.

Lemma blocks_length (lines : list string) :
  (preamble lines + length (concat (blocks lines)) = length lines)%nat.
Proof.
  destruct (blocks_shape lines) as [-> _]. rewrite length_drop.
  pose proof (preamble_le lines). lia.
Qed.

(** X2.  Below [2^63] lines the records of a parse cover the input from the
    first marker line to the last line without gap or overlap: the first
    record starts at the first marker line, every further record starts on
    the line after the end of the one before, the last record ends on the
    last line, and no record ends before it starts. *)
Theorem records_tile (lines : list string) :
  Z.of_nat (length lines) < 2 ^ 63 →
  tiles (Z.of_nat (preamble lines)) (Z.of_nat (length lines)) (records lines).
Proof.
  intros Hlen. rewrite records_blockChunks.
  pose proof (blocks_length lines) as Hsum.
  replace (Z.of_nat (length lines))
    with (Z.of_nat (preamble lines)
          + Z.of_nat (length (concat (blocks lines)))) by lia.
  apply blockChunks_tiles; [lia|apply blocks_nonempty|lia].
Qed.

Lemma markerLinesFrom_length (lines : list string) (k : nat) :
  length (markerLinesFrom k lines)
  = length (filter (λ x, isMarker x = true) lines).
Proof.
  revert k. induction lines as [|x rest IH]; intros k; [done|].
  cbn [markerLinesFrom]. rewrite length_app, (IH (S k)).
  destruct (isMarker x) eqn:Hx.
  - by rewrite filter_cons_True.
  - rewrite filter_cons_False; [done|]. by rewrite Hx.
Qed.

Lemma records_length (lines : list string) :
  length (records lines) = length (filter (λ x, isMarker x = true) lines).
Proof.
  rewrite <- (markerLinesFrom_length lines 0).
  rewrite <- (length_fmap (λ c, (StartLine c, Destination c))).
  rewrite records_headers. apply length_fmap.
Qed.

(** X3.  A parse yields exactly one record for every marker line of the
    input, also for a marker line that is directly followed by the next
    one or by the end of the input. *)
Theorem records_count (lines : list string) :
  length (records lines) = length (filter (λ x, isMarker x = true) lines).
Proof. apply records_length. Qed.

Lemma records_no_marker (lines : list string) :
  Forall (λ x, isMarker x = false) lines → records lines = [].
Proof.
  intros Hno. apply length_zero_iff_nil. rewrite records_length.
  induction Hno as [|x rest Hx _ IH]; [done|].
  rewrite filter_cons_False; [done|]. by rewrite Hx.
Qed.

(** X4.  When the file is read to the end and none of its lines starts with
    the marker (in particular when it is empty), [LoadDataTable] returns no
    error and leaves the table exactly as it was. *)
Theorem LoadDataTable_no_marker (fs : FileSystem) (rt : DataTable)
    (lines : list string) :
  fs (FilePath rt) = Scanned lines None →
  Forall (λ x, isMarker x = false) lines →
  LoadDataTable fs rt = (rt, None).
Proof.
  intros Hfs Hno. rewrite (LoadDataTable_scanned _ _ _ _ Hfs).
  rewrite records_no_marker by done. by destruct rt.
Qed.

(** *** Consistency of the table *)

Lemma blockChunks_hash (bs : list (list string)) (k : Z) :
  Forall (λ c, Hash c = hashChunk (Data c)) (blockChunks k bs).
Proof.
  revert k. induction bs as [|b bs IH]; intros k; cbn [blockChunks]; [done|].
  apply Forall_cons. split; [done|apply IH].
Qed.

Lemma fold_store_consistent (recs : list Chunk) (m : gmap string Chunk) :
  Forall (λ c, Hash c = hashChunk (Data c)) recs →
  consistent m → consistent (fold_left store recs m).
Proof.
  intros Hrecs Hm k c. rewrite fold_store_lookup.
  destruct (last _) as [c'|] eqn:Hl; [|apply Hm].
  intros [= <-].
  apply last_Some_elem_of, list_elem_of_filter in Hl as [Hk Hin].
  split; [done|]. by eapply Forall_forall in Hrecs.
Qed.

Lemma scanAll_consistent (lines : list string) (m : gmap string Chunk) :
  consistent m → consistent (scanAll lines m).
Proof.
  rewrite scanAll_records. apply fold_store_consistent.
  rewrite records_blockChunks. apply blockChunks_hash.
Qed.

(** X5.  If every entry of the table is filed under the destination of its
    chunk and carries the digest of its data, then this is still so after
    [LoadDataTable] and after [DetectChanges], whether they succeed or
    fail. *)
Theorem tables_stay_consistent (fs : FileSystem) (rt : DataTable) :
  consistent (Chunks rt) →
  consistent (Chunks (LoadDataTable fs rt).1) ∧
  consistent (Chunks (DetectChanges fs rt).1).
Proof.
  intros Hrt. split.
  - unfold LoadDataTable. destruct (fs (FilePath rt)) as [cause|lines err].
    + done.
    + assert (consistent (scanAll lines (Chunks rt)))
        by by apply scanAll_consistent.
      by destruct err.
  - unfold DetectChanges, LoadDataTable. cbn [NewDataTable FilePath Chunks].
    destruct (fs (FilePath rt)) as [cause|lines [cause|]]; [done..|].
    cbn [fst Chunks]. apply scanAll_consistent.
    intros k c Hk. by rewrite lookup_empty in Hk.
Qed.

(** *** Loading twice *)

Lemma fold_store_twice (recs : list Chunk) (m : gmap string Chunk) :
  fold_left store recs (fold_left store recs m) = fold_left store recs m.
Proof.
  apply map_eq. intros k. rewrite !fold_store_lookup.
  by destruct (last _).
Qed.

(** X6.  Loading the same file content a second time into the table
    changes nothing: the table and the returned error are those of the first
    load. *)
Theorem LoadDataTable_twice (fs : FileSystem) (rt : DataTable) :
  LoadDataTable fs (LoadDataTable fs rt).1 = LoadDataTable fs rt.
Proof.
  unfold LoadDataTable at 2 3.
  destruct (fs (FilePath rt)) as [cause|lines err] eqn:Hfs.
  - cbn [fst]. unfold LoadDataTable. by rewrite Hfs.
  - assert (LoadDataTable fs
              {| FilePath := FilePath rt;
                 Chunks := scanAll lines (Chunks rt) |}
            = ({| FilePath := FilePath rt;
                  Chunks := scanAll lines (Chunks rt) |},
               ErrorReading <$> err)) as Hagain.
    { rewrite (LoadDataTable_scanned _ _ lines err) by done.
      cbn [FilePath Chunks]. by rewrite scanAll_records, fold_store_twice. }
    destruct err; cbn [fst]; rewrite Hagain; done.
Qed.

(** *** Synthetic keys *)

Lemma markerLinesFrom_NoDup (lines : list string) (k : nat) :
  NoDup (markerLinesFrom k lines).*1.
Proof.
  revert k. induction lines as [|x rest IH]; intros k; cbn [markerLinesFrom].
  - constructor.
  - rewrite fmap_app. apply NoDup_app. split_and!; [|.. |apply IH].
    + destruct (isMarker x); [apply NoDup_singleton|constructor].
    + intros i Hi Hin. apply list_elem_of_fmap in Hin as ([i' line] & -> & Hin).
      apply markerLinesFrom_bound in Hin.
      destruct (isMarker x); simpl in Hi; [|by apply elem_of_nil in Hi].
      apply list_elem_of_singleton in Hi. lia.
Qed.

Lemma records_header_lookup (lines : list string) (a : nat)
    (e : nat * string) (c : Chunk) :
  markerLines lines !! a = Some e → records lines !! a = Some c →
  StartLine c = wrap64 (Z.of_nat e.1 + 1) ∧
  Destination c = destinationOf e.2 (wrap64 (Z.of_nat e.1 + 1)).
Proof.
  intros He Hc. pose proof (records_headers lines) as Hh.
  apply (f_equal (λ l, l !! a)) in Hh.
  rewrite !list_lookup_fmap, He, Hc in Hh. by injection Hh.
Qed.

(** X7.  Below [2^63] lines, two different marker lines that both lack a
    second token never get the same synthetic key. *)
Theorem synthetic_keys_distinct (lines : list string) :
  Z.of_nat (length lines) < 2 ^ 63 →
  ∀ a b e e' c c',
    markerLines lines !! a = Some e → records lines !! a = Some c →
    markerLines lines !! b = Some e' → records lines !! b = Some c' →
    a ≠ b →
    (length (Fields e.2) < 2)%nat → (length (Fields e'.2) < 2)%nat →
    Destination c ≠ Destination c'.
Proof.
  intros Hlen a b e e' c c' He Hc He' Hc' Hab Hs Hs' Heq.
  destruct (records_header_lookup _ _ _ _ He Hc) as [_ Hd].
  destruct (records_header_lookup _ _ _ _ He' Hc') as [_ Hd'].
  unfold destinationOf in Hd, Hd'.
  apply Nat.ltb_lt in Hs, Hs'. rewrite Nat.ltb_antisym in Hs, Hs'.
  apply negb_true_iff in Hs, Hs'. rewrite Hs in Hd. rewrite Hs' in Hd'.
  rewrite Hd, Hd' in Heq. apply String.app_inj, pretty_Z_inj in Heq.
  assert (e.1 < length lines ∧ e'.1 < length lines)%nat as [Hb Hb'].
  { split.
    - pose proof He as Hin%list_elem_of_lookup_2. destruct e as [i x].
      apply markerLinesFrom_bound in Hin. cbn [fst]. lia.
    - pose proof He' as Hin%list_elem_of_lookup_2. destruct e' as [i x].
      apply markerLinesFrom_bound in Hin. cbn [fst]. lia. }
  rewrite !wrap64_small in Heq by lia.
  apply Hab. eapply NoDup_lookup; [apply (markerLinesFrom_NoDup lines 0)|..].
  - fold (markerLines lines). by rewrite list_lookup_fmap, He.
  - fold (markerLines lines). rewrite list_lookup_fmap, He'.
    cbn. f_equal. lia.
Qed.

(** *** The lines of the records *)

Lemma blockChunks_lines (bs : list (list string)) (k : Z) :
  0 ≤ k → k + Z.of_nat (length (concat bs)) < 2 ^ 63 →
  Forall (λ b, b ≠ [] ∧ Forall (λ s, hasLF s = false) b) bs →
  Forall (λ c, Z.of_nat (length (splitLF (Data c)))
               = EndLine c - StartLine c + 1)
    (blockChunks k bs).
Proof.
  revert k. induction bs as [|b bs IH]; intros k Hk Hlt Hbs;
    cbn [blockChunks]; [done|].
  apply Forall_cons in Hbs as [[Hb Hlf] Hbs].
  cbn [concat] in Hlt. rewrite length_app in Hlt.
  apply Forall_cons. split.
  - cbn [blockChunk Data StartLine EndLine].
    assert (0 < Z.of_nat (length b)) by (destruct b; [done|cbn [length]; lia]).
    rewrite splitLF_join, !wrap64_small by (done || lia). lia.
  - apply IH; [lia|lia|done].
Qed.

(** X8.  When no line contains a line feed, splitting the data of the
    records at the line feeds gives back, record after record, exactly the
    input lines from the first marker line on; below [2^63] lines the data
    of a record has as many lines as lie between its start and end line. *)
Theorem records_keep_lines (lines : list string) :
  Forall (λ s, hasLF s = false) lines →
  recordsAsText (records lines) = drop (preamble lines) lines ∧
  (Z.of_nat (length lines) < 2 ^ 63 →
   Forall (λ c, Z.of_nat (length (splitLF (Data c)))
                = EndLine c - StartLine c + 1)
     (records lines)).
Proof.
  intros Hlf. split.
  - unfold records. rewrite recordsAsText_from; [done| |done].
    intros [c Hc]. discriminate Hc.
  - intros Hlen. rewrite records_blockChunks.
    pose proof (blocks_length lines) as Hsum.
    apply blockChunks_lines; [lia|lia|].
    apply Forall_and. split; [apply blocks_nonempty|].
    apply Forall_concat. destruct (blocks_shape lines) as [-> _].
    by apply Forall_drop.
Qed.

(** *** More on detecting changes *)

Lemma changedKey_sym (old new : gmap string Chunk) (k : string) :
  changedKey old new k ↔ changedKey new old k.
Proof using Type.
  unfold changedKey. destruct (old !! k), (new !! k); split; auto.
Qed.

Lemma compareChunks_self (m : gmap string Chunk) : compareChunks m m = [].
Proof using range_perm.
  apply elem_of_nil_inv. intros k Hk.
  apply compareChunks_elem in Hk. unfold changedKey in Hk.
  by destruct (m !! k).
Qed.

(** X9.  Comparing in the other direction reports the same keys: the list
    for old against new is a rearrangement of the list for new against
    old. *)
Theorem compareChunks_symmetric (old new : gmap string Chunk) :
  compareChunks old new ≡ₚ compareChunks new old.
Proof using range_perm.
  apply NoDup_Permutation; [apply compareChunks_NoDup..|].
  intros k. rewrite !compareChunks_elem. apply changedKey_sym.
Qed.

(** X10.  Once the table holds the content of the file, by a successful
    [DetectChanges] or by the initial [LoadDataTable] into a new table, a
    further [DetectChanges] on the same content reports no key and leaves
    the table as it is. *)
Theorem DetectChanges_again (fs : FileSystem) (rt rt' : DataTable)
    (changed : list string) :
  DetectChanges fs rt = (rt', (changed, None)) ∨
  LoadDataTable fs (NewDataTable (FilePath rt)) = (rt', None) →
  DetectChanges fs rt' = (rt', ([], None)).
Proof using range_perm.
  intros Hfirst.
  assert (∃ lines, fs (FilePath rt) = Scanned lines None ∧
                   rt' = {| FilePath := FilePath rt;
                            Chunks := snapshot lines |})
    as (lines & Hfs & ->).
  { destruct (fs (FilePath rt)) as [cause|lines err] eqn:Hfs.
    - destruct Hfirst as [Hd|Hl].
      + unfold DetectChanges, LoadDataTable in Hd.
        cbn [NewDataTable FilePath] in Hd. by rewrite Hfs in Hd.
      + unfold LoadDataTable in Hl.
        cbn [NewDataTable FilePath] in Hl. by rewrite Hfs in Hl.
    - destruct err as [cause|].
      + destruct Hfirst as [Hd|Hl].
        * unfold DetectChanges in Hd.
          by rewrite (LoadDataTable_fresh fs _ lines (Some cause)) in Hd.
        * by rewrite (LoadDataTable_fresh fs _ lines (Some cause)) in Hl.
      + exists lines. split; [done|]. destruct Hfirst as [Hd|Hl].
        * rewrite (DetectChanges_readable fs rt lines Hfs) in Hd.
          by injection Hd.
        * rewrite (LoadDataTable_fresh fs _ lines None) in Hl by done.
          by injection Hl. }
  rewrite (DetectChanges_readable fs _ lines) by done.
  cbn [FilePath Chunks]. by rewrite compareChunks_self.
Qed.

(** X11.  A key is reported only if the raw contents under it differ (or it
    is present on one side only), provided both tables carry the digests of
    their data; when the digest has no collisions, every such key is
    reported. *)
Theorem compareChunks_by_content (old new : gmap string Chunk) (k : string) :
  consistent old → consistent new →
  (k ∈ compareChunks old new → Data <$> old !! k ≠ Data <$> new !! k) ∧
  ((∀ x y, sha256hex x = sha256hex y → x = y) →
   Data <$> old !! k ≠ Data <$> new !! k → k ∈ compareChunks old new).
Proof using range_perm.
  intros Hold Hnew. rewrite compareChunks_elem. unfold changedKey.
  destruct (old !! k) as [o|] eqn:Ho, (new !! k) as [n|] eqn:Hn; cbn.
  - destruct (Hold k o Ho) as [_ Hho]. destruct (Hnew k n Hn) as [_ Hhn].
    unfold hashChunk in Hho, Hhn. split.
    + intros Hne [= Hd]. apply Hne. by rewrite Hho, Hhn, Hd.
    + intros Hinj Hne Hh. apply Hne. f_equal. apply Hinj.
      by rewrite <- Hho, <- Hhn.
  - by split.
  - by split.
  - by split.
Qed.

Lemma snapshot_lookup_None (lines : list string) (k : string) :
  snapshot lines !! k = None ↔ k ∉ Destination <$> records lines.
Proof.
  unfold snapshot. rewrite scanAll_records, fold_store_lookup, lookup_empty.
  split.
  - intros Hl Hin. apply list_elem_of_fmap in Hin as (c & -> & Hin).
    destruct (last _) eqn:Hlast; [done|]. apply last_None in Hlast.
    assert (c ∈ filter (λ c', Destination c' = Destination c)
                  (records lines)) as Hc
      by by apply list_elem_of_filter.
    rewrite Hlast in Hc. by apply elem_of_nil in Hc.
  - intros Hk. destruct (last _) as [c|] eqn:Hlast; [|done].
    apply last_Some_elem_of, list_elem_of_filter in Hlast as [Hd Hin].
    destruct Hk. apply list_elem_of_fmap. by exists c.
Qed.

(** X12.  A successful [DetectChanges] drops what is no longer in the file:
    afterwards the table has an entry for a key exactly when a record of
    the file has that key, whatever the table held before. *)
Theorem DetectChanges_drops_removed (fs : FileSystem) (rt : DataTable)
    (lines : list string) (k : string) :
  fs (FilePath rt) = Scanned lines None →
  (is_Some (Chunks (DetectChanges fs rt).1 !! k)
   ↔ k ∈ Destination <$> records lines).
Proof using range_perm.
  intros Hfs. rewrite (DetectChanges_readable fs rt lines Hfs).
  cbn [fst Chunks]. rewrite <- not_eq_None_Some, snapshot_lookup_None.
  split; [apply dec_stable|auto].
Qed.

(** *** The report of [onChange] *)

Lemma nth_seq_take (l : list string) (n : nat) :
  (n ≤ length l)%nat → (λ i, nth i l "") <$> seq 0 n = take n l.
Proof using Type.
  revert n. induction l as [|x l IH]; intros n Hn.
  - cbn [length] in Hn. by replace n with 0%nat by lia.
  - destruct n as [|n]; [done|]. cbn [seq fmap list_fmap nth take].
    f_equal. rewrite <- (IH n) by (cbn [length] in Hn; lia).
    rewrite <- seq_shift, <- list_fmap_compose. done.
Qed.

Lemma reportChanged_keys (elapsed : string) (changed : list string) :
  changed ≠ [] →
  reportChanged elapsed changed =
    ["Found " +:+ pretty (length changed)
     +:+ " changed routes (detected in " +:+ elapsed +:+ "):" +:+ LF]
    ++ ((λ k, "  - " +:+ k +:+ LF) <$> take 10 changed)
    ++ (if (10 <? length changed)%nat then
          ["  ... and " +:+ pretty (length changed - 10)%nat
           +:+ " more" +:+ LF]
        else []).
Proof using Type.
  intros Hne. unfold reportChanged.
  destruct (length changed =? 0)%nat eqn:H0.
  { apply Nat.eqb_eq, length_zero_iff_nil in H0. done. }
  f_equal.
  destruct (length changed <? 10)%nat eqn:Hlt.
  - apply Nat.ltb_lt in Hlt.
    rewrite Nat.ltb_irrefl.
    assert ((10 <? length changed)%nat = false) as ->
      by (apply Nat.ltb_ge; lia).
    f_equal.
    rewrite (list_fmap_compose (λ i, nth i changed "")
               (λ k, "  - " +:+ k +:+ LF)).
    rewrite nth_seq_take by done.
    by rewrite !take_ge by lia.
  - apply Nat.ltb_ge in Hlt. f_equal.
    rewrite (list_fmap_compose (λ i, nth i changed "")
               (λ k, "  - " +:+ k +:+ LF)).
    by rewrite nth_seq_take by done.
Qed.

(** X19.  When the file can be read, [onChange] swaps the table for the
    snapshot of the file and prints, after its banner and the line of the
    load, either that nothing changed or the number of changed keys followed
    by the first ten of them, in the order of the list, and by the number of
    the remaining ones if there are more than ten. *)
Theorem onChange_report (elapsed : string) (fs : FileSystem)
    (rt : DataTable) (lines : list string) :
  fs (FilePath rt) = Scanned lines None →
  let rt' := {| FilePath := FilePath rt; Chunks := snapshot lines |} in
  let changed := compareChunks (Chunks rt) (snapshot lines) in
  onChange elapsed fs rt =
    (rt',
     [LF +:+ "[File Change Detected] Detecting changes..." +:+ LF;
      loadedLine rt'] ++
     match changed with
     | [] => ["No changes detected (checked in " +:+ elapsed +:+ ")" +:+ LF]
     | _ :: _ =>
         ["Found " +:+ pretty (length changed)
          +:+ " changed routes (detected in " +:+ elapsed +:+ "):" +:+ LF]
         ++ ((λ k, "  - " +:+ k +:+ LF) <$> take 10 changed)
         ++ (if (10 <? length changed)%nat then
               ["  ... and " +:+ pretty (length changed - 10)%nat
                +:+ " more" +:+ LF]
             else [])
     end).
Proof.
  intros Hfs rt' changed. unfold onChange.
  rewrite (DetectChanges_readable fs rt lines Hfs).
  fold rt' changed. do 2 f_equal.
  destruct changed as [|k rest] eqn:Hch; [done|].
  by apply reportChanged_keys.
Qed.

(** X20.  When the file cannot be read, [onChange] leaves the table as it
    was and prints, after its banner, one line with the error, which names
    the failed reload and then the failed open or read with its cause. *)
Theorem onChange_unreadable (elapsed : string) (fs : FileSystem)
    (rt : DataTable) :
  unreadable (fs (FilePath rt)) →
  ∃ step cause,
    (fs (FilePath rt) = OpenFails cause ∧ step = "failed to open file: " ∨
     (∃ lines, fs (FilePath rt) = Scanned lines (Some cause)) ∧
     step = "error reading file: ") ∧
    onChange elapsed fs rt =
      (rt,
       [LF +:+ "[File Change Detected] Detecting changes..." +:+ LF;
        "Error detecting changes: " +:+ "failed to reload routing table: "
        +:+ step +:+ cause +:+ LF]).
Proof.
  intros Hun. unfold onChange, DetectChanges, LoadDataTable.
  cbn [NewDataTable FilePath].
  destruct (fs (FilePath rt)) as [cause|lines [cause|]]; [| |done].
  - exists "failed to open file: ", cause. split; [by left|done].
  - exists "error reading file: ", cause. split; [right; eauto|done].
Qed.

End Table.

(** ** The debounced notifier *)

Section Debounce.

Import Notifier.

Variable path : string.
Variable d : Z.

Lemma expire_idle (limit : option Z) (w : World) :
  Forall (λ x, due limit x = false) (timers w) → expire limit w = w.
Proof using Type.
  intros Hidle. destruct w as [[fp db le tm] ts cs]. unfold expire.
  cbn [timers fw calls filePath debounce lastEvent timer] in *.
  assert (filter (λ t, due limit t = true) ts = []) as ->.
  { induction Hidle as [|x l Hx _ IH]; [done|].
    rewrite filter_cons_False by congruence. done. }
  assert ((λ t, if due limit t then stop t else t) <$> ts = ts) as ->.
  { induction Hidle as [|x l Hx _ IH]; [done|].
    cbn [fmap list_fmap]. rewrite Hx. f_equal. done. }
  by rewrite app_nil_r.
Qed.

Lemma pending_not_due (t now : Z) (w : World) :
  pending path d t w → now < t + d →
  Forall (λ x, due (Some now) x = false) (timers w).
Proof using Type.
  intros (_ & _ & _ & ts & Hts & -> & _) Hnow. apply Forall_app. split.
  - eapply Forall_impl; [exact Hts|]. intros x Hx. unfold due. by rewrite Hx.
  - apply Forall_singleton. unfold due. cbn [armed deadline andb].
    apply Z.leb_gt. lia.
Qed.

Lemma handleChange_first (now : Z) :
  pending path d now (handleChange now (NewFileWatcher path d)).
Proof using Type.
  unfold pending, handleChange. cbn. split_and!; [done..|].
  exists []. by split_and!.
Qed.

Lemma handleChange_pending (t now : Z) (w : World) :
  pending path d t w → pending path d now (handleChange now w).
Proof using Type.
  intros (Hcalls & Hpath & Hd & ts & Hts & Htimers & Htimer).
  unfold pending, handleChange. rewrite Htimer, Htimers, Hd.
  cbn [calls fw filePath debounce timer timers]. split_and!; [done..|].
  exists (ts ++ [{| deadline := t + Z.max 0 d; armed := false |}]).
  assert (alter stop (length ts)
            (ts ++ [{| deadline := t + Z.max 0 d; armed := true |}])
          = ts ++ [{| deadline := t + Z.max 0 d; armed := false |}]) as ->.
  { rewrite <- (Nat.add_0_r (length ts)) at 1. by rewrite alter_app_r. }
  split_and!; [|done..].
  apply Forall_app. split; [done|]. by apply Forall_singleton.
Qed.

Lemma relevant_path (f g : FileWatcher) (e : Event) :
  filePath f = filePath g → relevant f e = relevant g e.
Proof using Type. intros Hfg. unfold relevant. by rewrite Hfg. Qed.

Lemma watchEvent_pending (t : Z) (w : World) (e : Event) :
  pending path d t w →
  relevant (fw (NewFileWatcher path d)) e = true →
  arrival e < t + d →
  pending path d (arrival e) (watchEvent w e).
Proof using Type.
  intros Hp Hrel Hlt. unfold watchEvent.
  rewrite expire_idle by (by eapply pending_not_due).
  rewrite (relevant_path _ (fw (NewFileWatcher path d))), Hrel.
  - by eapply handleChange_pending.
  - by destruct Hp as (_ & -> & _).
Qed.

Lemma burst_cons (a b : Event) (l : list Event) :
  burst d (a :: b :: l) →
  arrival a ≤ arrival b < arrival a + d ∧ burst d (b :: l).
Proof using Type.
  intros Hb. split.
  - by apply (Hb 0%nat).
  - intros i x y Hx Hy. by apply (Hb (S i)).
Qed.

Lemma watchLoop_pending (events : list Event) (e0 : Event) (w : World) :
  pending path d (arrival e0) w →
  Forall (λ e, relevant (fw (NewFileWatcher path d)) e = true) events →
  burst d (e0 :: events) →
  pending path d (arrival (default e0 (last events)))
    (fold_left watchEvent events w).
Proof using Type.
  revert e0 w. induction events as [|e events IH]; intros e0 w Hp Hrel Hb;
    [done|].
  apply Forall_cons in Hrel as [He Hrel].
  apply burst_cons in Hb as [[_ Hlt] Hb].
  cbn [fold_left].
  replace (default e0 (last (e :: events)))
    with (default e (last events)).
  - apply IH; [|done..]. by apply watchEvent_pending with (arrival e0).
  - destruct events as [|e' events]; [done|].
    rewrite last_cons_cons.
    destruct (last (e' :: events)) eqn:E; [done|]. by apply last_None in E.
Qed.

Lemma stopped_not_due (limit : option Z) (ts : list Timer) :
  Forall (λ x, armed x = false) ts →
  filter (λ x, due limit x = true) ts = [].
Proof using Type.
  induction 1 as [|x l Hx _ IH]; [done|].
  rewrite filter_cons_False; [done|]. unfold due. by rewrite Hx.
Qed.

Lemma expire_pending (t : Z) (w : World) :
  pending path d t w → calls (expire None w) = [t + Z.max 0 d].
Proof using Type.
  intros (Hcalls & _ & _ & ts & Hts & Htimers & _).
  unfold expire. cbn [calls].
  rewrite Hcalls, Htimers, filter_app, stopped_not_due by done.
  by rewrite filter_cons_True.
Qed.

(** C3.  A burst of relevant events, each arriving less than the debounce
    interval after the one before, makes the notifier call [onChange]
    exactly once, and not earlier than one interval after the last event of
    the burst. *)
Theorem debounce_burst (events : list Event) (e : Event) :
  last events = Some e →
  Forall (λ x, relevant (fw (NewFileWatcher path d)) x = true) events →
  burst d events →
  ∃ t, calls (watch events (NewFileWatcher path d)) = [t] ∧
       arrival e + d ≤ t.
Proof using Type.
  intros Hlast Hrel Hb. exists (arrival e + Z.max 0 d). split; [|lia].
  destruct events as [|e0 events]; [done|].
  apply Forall_cons in Hrel as [He0 Hrel].
  unfold watch. cbn [fold_left]. apply expire_pending.
  replace e with (default e0 (last events)).
  - apply watchLoop_pending; [|done..].
    unfold watchEvent. rewrite expire_idle by done.
    cbn [fw NewFileWatcher] in He0 |- *. rewrite He0.
    apply handleChange_first.
  - destruct events as [|e' events]; [by injection Hlast|].
    rewrite last_cons_cons in Hlast. by rewrite Hlast.
Qed.

(** *** The watcher as a two-state machine *)

Lemma tracks_new : tracks path d None [] (NewFileWatcher path d).
Proof using Type. unfold tracks. cbn. split_and!; [done..|]. by exists []. Qed.

Lemma stop_stopped (ts : list Timer) (id : nat) :
  Forall (λ x, armed x = false) ts → alter stop id ts = ts.
Proof using Type.
  intros Hts. revert id. induction Hts as [|x l Hx _ IH]; intros id; [done|].
  destruct id as [|id]; cbn.
  - f_equal. destruct x as [dl ar]. cbn in Hx. by rewrite Hx.
  - f_equal. apply IH.
Qed.

Lemma expire_stopped (limit : option Z) (ts : list Timer) :
  Forall (λ x, armed x = false) ts →
  (λ t, if due limit t then stop t else t) <$> ts = ts.
Proof using Type.
  induction 1 as [|x l Hx _ IH]; [done|].
  cbn [fmap list_fmap]. unfold due at 1. rewrite Hx. cbn [andb].
  f_equal. exact IH.
Qed.

Lemma expire_tracks (now : Z) (pend : option Z) (cs : list Z) (w : World) :
  tracks path d pend cs w →
  tracks path d
    (match pend with
     | Some T => if T <=? now then None else Some T
     | None => None
     end)
    (cs ++ match pend with
           | Some T => if T <=? now then [T] else []
           | None => []
           end)
    (expire (Some now) w).
Proof using Type.
  intros (Hcalls & Hpath & Hd & ts & Hts & Htimers).
  destruct pend as [T|].
  - destruct Htimers as [Htimers Htimer].
    assert (calls (expire (Some now) w)
            = cs ++ (if T <=? now then [T] else [])) as Hc.
    { unfold expire. cbn [calls].
      rewrite Hcalls, Htimers, filter_app, (stopped_not_due _ ts Hts).
      cbn [app]. destruct (T <=? now) eqn:HT.
      - rewrite filter_cons_True; [done|]. unfold due. cbn. by rewrite HT.
      - rewrite filter_cons_False; [done|]. unfold due. cbn. by rewrite HT. }
    assert (timers (expire (Some now) w)
            = ts ++ [{| deadline := T;
                        armed := if T <=? now then false else true |}])
      as Ht.
    { unfold expire. cbn [timers].
      rewrite Htimers, fmap_app, (expire_stopped _ ts Hts).
      cbn [fmap list_fmap]. unfold due. cbn [armed deadline andb].
      by destruct (T <=? now). }
    unfold tracks. rewrite Hc, Ht. cbn [expire fw filePath debounce timer].
    split_and!; [done..|].
    destruct (T <=? now).
    + exists (ts ++ [{| deadline := T; armed := false |}]).
      split; [|done]. apply Forall_app. split; [done|].
      by apply Forall_singleton.
    + exists ts. by split_and!.
  - rewrite expire_idle.
    + rewrite app_nil_r. unfold tracks. split_and!; [done..|]. by exists ts.
    + rewrite Htimers. eapply Forall_impl; [exact Hts|].
      intros x Hx. unfold due. by rewrite Hx.
Qed.

Lemma handleChange_tracks (now : Z) (pend : option Z) (cs : list Z)
    (w : World) :
  tracks path d pend cs w →
  tracks path d (Some (now + Z.max 0 d)) cs (handleChange now w).
Proof using Type.
  intros (Hcalls & Hpath & Hd & ts & Hts & Htimers).
  unfold tracks, handleChange. rewrite Hd.
  cbn [calls fw filePath debounce timer timers]. split_and!; [done..|].
  destruct pend as [T|].
  - destruct Htimers as [Htimers Htimer]. rewrite Htimer, Htimers.
    exists (ts ++ [{| deadline := T; armed := false |}]).
    assert (alter stop (length ts)
              (ts ++ [{| deadline := T; armed := true |}])
            = ts ++ [{| deadline := T; armed := false |}]) as ->.
    { rewrite <- (Nat.add_0_r (length ts)) at 1. by rewrite alter_app_r. }
    split_and!; [|done..].
    apply Forall_app. split; [done|]. by apply Forall_singleton.
  - exists ts. rewrite Htimers.
    assert (match timer (fw w) with
            | Some id => alter stop id ts
            | None => ts
            end = ts) as ->.
    { destruct (timer (fw w)); [by apply stop_stopped|done]. }
    by split_and!.
Qed.

Lemma watchEvent_tracks (pend : option Z) (cs : list Z) (w : World)
    (e : Event) :
  tracks path d pend cs w →
  let fired :=
    match pend with
    | Some T => T <=? arrival e
    | None => false
    end in
  tracks path d
    (if relevant (fw (NewFileWatcher path d)) e
     then Some (arrival e + Z.max 0 d)
     else if fired then None else pend)
    (cs ++ if fired then option_list pend else [])
    (watchEvent w e).
Proof using Type.
  intros Hw fired. unfold watchEvent.
  pose proof (expire_tracks (arrival e) _ _ _ Hw) as Hx.
  assert (relevant (fw (expire (Some (arrival e)) w)) e
          = relevant (fw (NewFileWatcher path d)) e) as ->.
  { apply relevant_path. by destruct Hx as (_ & -> & _). }
  assert ((cs ++ match pend with
                 | Some T => if T <=? arrival e then [T] else []
                 | None => []
                 end) = cs ++ (if fired then option_list pend else []))
    as Hcs.
  { unfold fired. destruct pend as [T|]; [|done].
    by destruct (T <=? arrival e). }
  rewrite Hcs in Hx.
  destruct (relevant (fw (NewFileWatcher path d)) e).
  - by eapply handleChange_tracks.
  - unfold fired. destruct pend as [T|]; [|done].
    by destruct (T <=? arrival e).
Qed.

Lemma watchLoop_tracks (events : list Event) (pend : option Z)
    (cs : list Z) (w : World) :
  tracks path d pend cs w →
  ∃ pend' cs', tracks path d pend' cs' (fold_left watchEvent events w).
Proof using Type.
  revert pend cs w. induction events as [|e events IH]; intros pend cs w Hw.
  - by exists pend, cs.
  - cbn [fold_left]. eapply IH. by apply watchEvent_tracks.
Qed.

Lemma expire_tracks_end (pend : option Z) (cs : list Z) (w : World) :
  tracks path d pend cs w → calls (expire None w) = cs ++ option_list pend.
Proof using Type.
  intros (Hcalls & _ & _ & ts & Hts & Htimers).
  unfold expire. cbn [calls]. rewrite Hcalls. f_equal.
  destruct pend as [T|].
  - destruct Htimers as [-> _].
    rewrite filter_app, stopped_not_due by done.
    by rewrite filter_cons_True.
  - rewrite Htimers, stopped_not_due by done. done.
Qed.

Lemma watch_debouncer (events : list Event) (pend : option Z) (cs : list Z)
    (w : World) :
  tracks path d pend cs w →
  calls (watch events w)
  = cs ++ debouncer (fw (NewFileWatcher path d)) pend events.
Proof using Type.
  revert pend cs w. induction events as [|e events IH]; intros pend cs w Hw.
  - by apply expire_tracks_end.
  - unfold watch. cbn [fold_left debouncer].
    fold (watch events (watchEvent w e)).
    rewrite (IH _ _ _ (watchEvent_tracks _ _ _ e Hw)).
    by rewrite <- app_assoc.
Qed.

(** X13.  The watcher behaves as a machine with two states: on every
    sequence of events, the calls of [onChange] are those of a debouncer
    that is either idle or waits for one deadline, fires when an event
    arrives at or after the deadline or when the events are over, and sets
    the deadline anew at every relevant event. *)
Theorem watch_is_debouncer (events : list Event) :
  calls (watch events (NewFileWatcher path d))
  = debouncer (fw (NewFileWatcher path d)) None events.
Proof using Type. apply (watch_debouncer events None [] _ tracks_new). Qed.

(** X14.  However many events the watcher has handled, at most one timer
    of the runtime is armed. *)
Theorem one_timer_armed (events : list Event) :
  (length (filter (λ t, armed t = true)
             (timers (fold_left watchEvent events (NewFileWatcher path d))))
   ≤ 1)%nat.
Proof using Type.
  destruct (watchLoop_tracks events _ _ _ tracks_new)
    as (pend & cs & _ & _ & _ & ts & Hts & Htimers).
  assert (filter (λ t, armed t = true) ts = []) as Hnone.
  { clear Htimers. induction Hts as [|x l Hx _ IH]; [done|].
    rewrite filter_cons_False; [done|]. by rewrite Hx. }
  destruct pend as [T|].
  - destruct Htimers as [-> _]. rewrite filter_app, Hnone.
    by rewrite filter_cons_True.
  - rewrite Htimers, Hnone. cbn. lia.
Qed.

(** X15.  After [Close] no call of [onChange] is made any more, however
    long the time passes, whatever events the watcher has handled before;
    and closing twice is the same as closing once. *)
Theorem Close_cancels (events : list Event) :
  let w := fold_left watchEvent events (NewFileWatcher path d) in
  calls (expire None (Close w)) = calls w ∧ Close (Close w) = Close w.
Proof using Type.
  intros w.
  destruct (watchLoop_tracks events _ _ _ tracks_new)
    as (pend & cs & Hcalls & _ & _ & ts & Hts & Htimers).
  fold w in Hcalls, Htimers. split.
  - assert (Forall (λ x, armed x = false) (timers (Close w))) as Hall.
    { unfold Close. cbn [timers fw]. destruct pend as [T|].
      - destruct Htimers as [-> ->].
        rewrite <- (Nat.add_0_r (length ts)) at 1. rewrite alter_app_r.
        apply Forall_app. split; [done|]. by apply Forall_singleton.
      - rewrite Htimers.
        destruct (timer (fw w)); [by rewrite stop_stopped|done]. }
    unfold expire. cbn [calls]. rewrite stopped_not_due by done.
    cbn [fmap list_fmap]. by rewrite app_nil_r.
  - unfold Close. cbn [fw timers calls]. f_equal.
    destruct (timer (fw w)) as [id|]; [|done].
    rewrite list_alter_alter_eq. apply list_alter_ext; [|done].
    intros x _. done.
Qed.

(** *** Events in the order of their arrival *)

Lemma debouncer_idle_irrelevant (f : FileWatcher) (events : list Event) :
  filter (λ e, relevant f e = true) events = [] →
  debouncer f None events = [].
Proof using Type.
  induction events as [|e events IH]; [done|]. cbn [debouncer].
  destruct (relevant f e) eqn:He.
  - by rewrite filter_cons_True.
  - rewrite filter_cons_False by (by rewrite He). exact IH.
Qed.

Lemma inOrder_filter (f : FileWatcher) (events : list Event) :
  inOrder events → inOrder (filter (λ e, relevant f e = true) events).
Proof using Type.
  induction events as [|e events IH]; [done|]. intros [Hall Hrest].
  destruct (relevant f e) eqn:He.
  - rewrite filter_cons_True by done. split; [|by apply IH].
    apply Forall_forall. intros x [_ Hx]%list_elem_of_filter.
    by eapply Forall_forall in Hall.
  - rewrite filter_cons_False by (by rewrite He). by apply IH.
Qed.

Lemma debouncer_quietEnds (f : FileWatcher) (events : list Event) :
  (inOrder events →
   debouncer f None events
   = quietEnds (Z.max 0 (debounce f))
       (filter (λ e, relevant f e = true) events)) ∧
  (∀ e0, inOrder (e0 :: events) →
   debouncer f (Some (arrival e0 + Z.max 0 (debounce f))) events
   = quietEnds (Z.max 0 (debounce f))
       (e0 :: filter (λ e, relevant f e = true) events)).
Proof using Type.
  induction events as [|e events [IHn IHs]].
  - split; [done|]. intros e0 _. done.
  - split.
    + intros [Hall Hrest]. cbn [debouncer app].
      destruct (relevant f e) eqn:He.
      * rewrite filter_cons_True by done. apply IHs. by split.
      * rewrite filter_cons_False by (by rewrite He). by apply IHn.
    + intros e0 (Hall0 & Hall & Hrest).
      apply Forall_cons in Hall0 as [He0 Hall0].
      cbn [debouncer option_list].
      destruct (relevant f e) eqn:He.
      * rewrite filter_cons_True by done.
        rewrite (IHs e) by by split.
        cbn [quietEnds].
        by destruct (arrival e0 + Z.max 0 (debounce f) <=? arrival e).
      * rewrite filter_cons_False by (by rewrite He).
        destruct (arrival e0 + Z.max 0 (debounce f) <=? arrival e) eqn:Hf.
        -- rewrite IHn by done. apply Z.leb_le in Hf.
           destruct (filter (λ e, relevant f e = true) events)
             as [|e' rest] eqn:Hfil; [done|].
           cbn [quietEnds].
           assert (arrival e ≤ arrival e') as He'.
           { assert (e' ∈ events) as Hin.
             { eapply (list_elem_of_filter (λ e, relevant f e = true)).
               rewrite Hfil. left. }
             by eapply Forall_forall in Hall. }
           assert ((arrival e0 + Z.max 0 (debounce f) <=? arrival e') = true)
             as -> by (apply Z.leb_le; lia).
           done.
        -- cbn [app]. apply IHs. by split.
Qed.

(** X16.  When the events come in the order of their arrival, [onChange]
    is called once for every relevant event that no other relevant event
    follows within the debounce interval, one interval after that event,
    and at no other time. *)
Theorem watch_quiet_ends (events : list Event) :
  inOrder events →
  calls (watch events (NewFileWatcher path d))
  = quietEnds (Z.max 0 d)
      (filter (λ e, relevant (fw (NewFileWatcher path d)) e = true) events).
Proof using Type.
  intros Hord. rewrite (watch_debouncer events None [] _ tracks_new).
  cbn [app]. by apply debouncer_quietEnds.
Qed.

(** X17.  Events for another path, and events that are neither a write nor
    a create, make no difference: with or without them [onChange] is called
    at the same instants, when the events come in the order of their
    arrival. *)
Theorem watch_ignores_irrelevant (events : list Event) :
  inOrder events →
  calls (watch events (NewFileWatcher path d))
  = calls (watch
      (filter (λ e, relevant (fw (NewFileWatcher path d)) e = true) events)
      (NewFileWatcher path d)).
Proof using Type.
  intros Hord. rewrite !(watch_debouncer _ None [] _ tracks_new).
  cbn [app].
  rewrite (proj1 (debouncer_quietEnds _ events) Hord).
  rewrite (proj1 (debouncer_quietEnds _ _) (inOrder_filter _ _ Hord)).
  f_equal. symmetry. apply list_filter_filter_l. auto.
Qed.

Lemma spaced_cons (D : Z) (a b : Event) (l : list Event) :
  spaced D (a :: b :: l) → arrival a + D ≤ arrival b ∧ spaced D (b :: l).
Proof using Type.
  intros Hs. split.
  - by apply (Hs 0%nat).
  - intros i x y Hx Hy. by apply (Hs (S i)).
Qed.

Lemma debouncer_spaced (f : FileWatcher) (events : list Event) (e0 : Event) :
  Forall (λ e, relevant f e = true) events →
  spaced (Z.max 0 (debounce f)) (e0 :: events) →
  debouncer f (Some (arrival e0 + Z.max 0 (debounce f))) events
  = (λ e, arrival e + Z.max 0 (debounce f)) <$> (e0 :: events).
Proof using Type.
  revert e0. induction events as [|e events IH]; intros e0 Hrel Hsp; [done|].
  apply Forall_cons in Hrel as [He Hrel].
  apply spaced_cons in Hsp as [Hgap Hsp].
  cbn [debouncer]. rewrite He.
  apply Z.leb_le in Hgap. rewrite Hgap. cbn [option_list app].
  rewrite (IH e) by done. done.
Qed.

(** X18.  When every relevant event comes at least one debounce interval
    after the one before, each of them gets its own call of [onChange], one
    interval after it. *)
Theorem debounce_spaced (events : list Event) :
  Forall (λ e, relevant (fw (NewFileWatcher path d)) e = true) events →
  spaced (Z.max 0 d) events →
  calls (watch events (NewFileWatcher path d))
  = (λ e, arrival e + Z.max 0 d) <$> events.
Proof using Type.
  intros Hrel Hsp. rewrite (watch_debouncer events None [] _ tracks_new).
  cbn [app]. destruct events as [|e0 events]; [done|].
  apply Forall_cons in Hrel as [He0 Hrel].
  cbn [debouncer]. rewrite He0. cbn [app].
  by apply (debouncer_spaced (fw (NewFileWatcher path d))).
Qed.

End Debounce.

(** ** The theorems at sample inputs *)

(** A scanner that stops on a read error after two lines: [LoadDataTable]
    returns the error, and the chunk read before the error is in the table. *)
Lemma LoadDataTable_read_error_stores :
  unreadable (brokenFile "routes.txt") ∧
  (LoadDataTable plainDigest asciiFields brokenFile
     (NewDataTable "routes.txt")).2
    = Some (ErrorReading "input/output error") ∧
  Chunks (NewDataTable "routes.txt") !! "10.0.0.0/8" = None ∧
  Chunks (LoadDataTable plainDigest asciiFields brokenFile
            (NewDataTable "routes.txt")).1 !! "10.0.0.0/8"
    = Some {| StartLine := 1; EndLine := 2;
              Hash := plainDigest
                ("Destination: 10.0.0.0/8" +:+ LF +:+ "     NextHop: 10.0.0.1");
              Data := "Destination: 10.0.0.0/8" +:+ LF
                      +:+ "     NextHop: 10.0.0.1";
              Destination := "10.0.0.0/8" |} ∧
  Chunks (LoadDataTable plainDigest asciiFields brokenFile
            (NewDataTable "routes.txt")).1
    ≠ Chunks (NewDataTable "routes.txt").
Proof.
  split_and!; [exact I|reflexivity|reflexivity|by vm_compute|].
  intros Heq.
  apply (f_equal (λ m : gmap string Chunk, m !! "10.0.0.0/8")) in Heq.
  vm_compute in Heq. discriminate Heq.
Qed.

(** [LoadDataTable_unreadable] for a table with one entry and a scanner that
    stops on a read error. *)
Lemma LoadDataTable_unreadable_witness :
  (∃ err, (LoadDataTable plainDigest asciiFields brokenFile staleTable).2
          = Some err) ∧
  (∀ cause, brokenFile (FilePath staleTable) = OpenFails cause →
     (LoadDataTable plainDigest asciiFields brokenFile staleTable).1
     = staleTable) ∧
  (∀ lines cause,
     brokenFile (FilePath staleTable) = Scanned lines (Some cause) →
     Chunks (LoadDataTable plainDigest asciiFields brokenFile staleTable).1
       = fold_left store (records plainDigest asciiFields lines)
           (Chunks staleTable) ∧
     ∀ k, k ∉ Destination <$> records plainDigest asciiFields lines →
       Chunks (LoadDataTable plainDigest asciiFields brokenFile staleTable).1
         !! k = Chunks staleTable !! k).
Proof.
  apply (LoadDataTable_unreadable plainDigest asciiFields brokenFile
           staleTable).
  exact I.
Defined.

(** [LoadDataTable_merges] for a table with one entry and the second version
    of the file. *)
Lemma LoadDataTable_merges_witness :
  Chunks (LoadDataTable plainDigest asciiFields (fileOf routesV2)
            staleTable).1
    = fold_left store (records plainDigest asciiFields routesV2)
        (Chunks staleTable) ∧
  ∀ k, k ∉ Destination <$> records plainDigest asciiFields routesV2 →
    Chunks (LoadDataTable plainDigest asciiFields (fileOf routesV2)
              staleTable).1 !! k
    = Chunks staleTable !! k.
Proof.
  apply (LoadDataTable_merges plainDigest asciiFields (fileOf routesV2)
           staleTable routesV2 None).
  reflexivity.
Defined.

(** [DetectChanges_unreadable] when the file is missing. *)
Lemma DetectChanges_unreadable_witness :
  ∃ err, DetectChanges plainDigest asciiFields map_to_list missingFile
           staleTable
         = (staleTable, ([], Some (FailedToReload err))).
Proof.
  apply (DetectChanges_unreadable plainDigest asciiFields map_to_list
           missingFile staleTable).
  exact I.
Defined.

(** [DetectChanges_publishes] for a reload of the second version of the
    file. *)
Lemma DetectChanges_publishes_witness :
  Chunks {| FilePath := "routes.txt";
            Chunks := snapshot plainDigest asciiFields routesV2 |}
    = Chunks (LoadDataTable plainDigest asciiFields (fileOf routesV2)
                (NewDataTable (FilePath staleTable))).1 ∧
  ∃ lines, fileOf routesV2 (FilePath staleTable) = Scanned lines None ∧
           Chunks {| FilePath := "routes.txt";
                     Chunks := snapshot plainDigest asciiFields routesV2 |}
           = snapshot plainDigest asciiFields lines.
Proof.
  apply (DetectChanges_publishes plainDigest asciiFields map_to_list
           (fileOf routesV2) staleTable _
           (compareChunks map_to_list (Chunks staleTable)
              (snapshot plainDigest asciiFields routesV2))).
  apply (DetectChanges_readable plainDigest asciiFields map_to_list
           (λ m, reflexivity (map_to_list m))).
  reflexivity.
Defined.

(** [compareChunks_changed] for the two versions of the file, ranging in the
    order of [map_to_list]. *)
Lemma compareChunks_changed_witness :
  NoDup (compareChunks map_to_list
           (snapshot plainDigest asciiFields routesV1)
           (snapshot plainDigest asciiFields routesV2)) ∧
  ∀ k, k ∈ compareChunks map_to_list
             (snapshot plainDigest asciiFields routesV1)
             (snapshot plainDigest asciiFields routesV2)
       ↔ changedKey (snapshot plainDigest asciiFields routesV1)
           (snapshot plainDigest asciiFields routesV2) k.
Proof.
  apply (compareChunks_changed map_to_list).
  intros m. reflexivity.
Defined.

(** [compareChunks_same] for a table and the same table with other line
    numbers. *)
Lemma compareChunks_same_witness :
  compareChunks map_to_list (Chunks staleTable)
    (shiftChunk 1 <$> Chunks staleTable) = [] ∧
  compareChunks map_to_list (Chunks staleTable) (Chunks staleTable) = [].
Proof.
  apply (compareChunks_same map_to_list).
  - intros m. reflexivity.
  - intros k. rewrite lookup_fmap.
    by destruct (Chunks staleTable !! k).
Defined.


(** A marker line without a second token on line 1 and a marker line whose
    second token is [unknown_1]: both chunks get the key [unknown_1]. *)
Lemma synthetic_key_clash :
  (length (asciiFields "Destination:") < 2)%nat ∧
  (2 ≤ length (asciiFields "Destination: unknown_1"))%nat ∧
  markerLines clashingKeys
    = [(0%nat, "Destination:"); (1%nat, "Destination: unknown_1")] ∧
  Destination <$> records plainDigest asciiFields clashingKeys
    = ["unknown_1"; "unknown_1"].
Proof. split_and!; [vm_compute; lia|vm_compute; lia|reflexivity|by vm_compute]. Qed.

(** [debounce_burst] for three events within 450 ms and an interval of
    500 ms. *)
Lemma debounce_burst_witness :
  ∃ t, Notifier.calls
         (Notifier.watch burstEvents
            (Notifier.NewFileWatcher "routes.txt" 500)) = [t] ∧
       450 + 500 ≤ t.
Proof.
  apply (debounce_burst "routes.txt" 500 burstEvents
           (Notifier.mkEvent "routes.txt" 3 450)).
  - reflexivity.
  - repeat constructor.
  - intros [|[|[|i]]] a b Ha Hb; simplify_eq/=; lia.
Defined.

(** ** The scenarios of the specification *)

(** A stale entry survives a direct reload of a file that no longer has
    it. *)
Example LoadDataTable_retains_stale :
  Chunks (LoadDataTable plainDigest asciiFields (fileOf routesV2)
            staleTable).1 !! "192.168.0.0/16" = Some staleChunk ∧
  "192.168.0.0/16" ∉ Destination <$> records plainDigest asciiFields routesV2.
Proof. split; [by vm_compute|]. compute_done. Qed.

(** The first version is loaded, then the file is rewritten: one route is
    edited, one removed and one added; all three keys are reported. *)
Example DetectChanges_rewritten :
  (DetectChanges plainDigest asciiFields map_to_list (fileOf routesV2)
     {| FilePath := "routes.txt";
        Chunks := snapshot plainDigest asciiFields routesV1 |}).2
  = (["10.0.0.0/8"; "0.0.0.0/0"; "172.16.0.0/12"], None).
Proof. by vm_compute. Qed.

(** A rewrite with identical content reports nothing. *)
Example DetectChanges_identical :
  (DetectChanges plainDigest asciiFields map_to_list (fileOf routesV1)
     {| FilePath := "routes.txt";
        Chunks := snapshot plainDigest asciiFields routesV1 |}).2
  = ([], None).
Proof. by vm_compute. Qed.

(** Without a second token on the marker line the key follows the line
    number, so the text of the records parses to another key once the lines
    before the first marker are gone. *)
Example reparse_synthetic_key_moves :
  Destination <$> records plainDigest asciiFields
    ["# routing table"; "Destination:"; "     NextHop: 10.0.0.1"]
  = ["unknown_2"] ∧
  Destination <$> records plainDigest asciiFields
    (recordsAsText (records plainDigest asciiFields
       ["# routing table"; "Destination:"; "     NextHop: 10.0.0.1"]))
  = ["unknown_1"].
Proof. split; by vm_compute. Qed.

(** An event, a pause of one full interval, then another event: two calls
    of [onChange]. *)
Example debounce_two_calls :
  Notifier.calls
    (Notifier.watch
       [Notifier.mkEvent "routes.txt" 2 0;
        Notifier.mkEvent "routes.txt" 2 500]
       (Notifier.NewFileWatcher "routes.txt" 500))
  = [500; 1000].
Proof. reflexivity. Qed.

(** Events for another path or of another kind do not re-arm the timer. *)
Example debounce_ignores_irrelevant :
  Notifier.calls
    (Notifier.watch
       [Notifier.mkEvent "routes.txt" 2 0;
        Notifier.mkEvent "other.txt" 2 100;
        Notifier.mkEvent "routes.txt" 4 200]
       (Notifier.NewFileWatcher "routes.txt" 500))
  = [500].
Proof. reflexivity. Qed.

(** ** Further theorems at sample inputs *)

(** [records_tile] for the first version of the file. *)
Lemma records_tile_witness :
  tiles (Z.of_nat (preamble routesV1)) (Z.of_nat (length routesV1))
    (records plainDigest asciiFields routesV1).
Proof.
  apply (records_tile plainDigest asciiFields routesV1).
  by vm_compute.
Defined.

(** [LoadDataTable_no_marker] for a file without a marker line. *)
Lemma LoadDataTable_no_marker_witness :
  LoadDataTable plainDigest asciiFields (fileOf noRoutes) staleTable
  = (staleTable, None).
Proof.
  apply (LoadDataTable_no_marker plainDigest asciiFields (fileOf noRoutes)
           staleTable noRoutes).
  - reflexivity.
  - compute_done.
Defined.

(** [tables_stay_consistent] for a table with one entry and a scanner that
    stops on a read error. *)
Lemma tables_stay_consistent_witness :
  consistent plainDigest
    (Chunks (LoadDataTable plainDigest asciiFields brokenFile staleTable).1) ∧
  consistent plainDigest
    (Chunks (DetectChanges plainDigest asciiFields map_to_list brokenFile
               staleTable).1).
Proof.
  apply (tables_stay_consistent plainDigest asciiFields map_to_list
           brokenFile staleTable).
  intros k c Hk. cbn [staleTable Chunks] in Hk.
  apply lookup_singleton_Some in Hk as [<- <-].
  split; reflexivity.
Defined.

(** [synthetic_keys_distinct] for two marker lines without a second
    token, on lines 1 and 3. *)
Lemma synthetic_keys_distinct_witness :
  ∃ c c', records plainDigest asciiFields bareMarkers = [c; c'] ∧
          Destination c ≠ Destination c'.
Proof.
  eexists _, _. split; [vm_compute; reflexivity|].
  apply (synthetic_keys_distinct plainDigest asciiFields bareMarkers
           ltac:(by vm_compute) 0%nat 1%nat
           (0%nat, "Destination:") (2%nat, "Destination:")).
  - reflexivity.
  - by vm_compute.
  - reflexivity.
  - by vm_compute.
  - lia.
  - vm_compute. lia.
  - vm_compute. lia.
Defined.

(** [records_keep_lines] for the first version of the file. *)
Lemma records_keep_lines_witness :
  recordsAsText (records plainDigest asciiFields routesV1)
  = drop (preamble routesV1) routesV1 ∧
  (Z.of_nat (length routesV1) < 2 ^ 63 →
   Forall (λ c, Z.of_nat (length (splitLF (Data c)))
                = EndLine c - StartLine c + 1)
     (records plainDigest asciiFields routesV1)).
Proof.
  apply (records_keep_lines plainDigest asciiFields routesV1).
  compute_done.
Defined.

(** [compareChunks_symmetric] for the two versions of the file. *)
Lemma compareChunks_symmetric_witness :
  compareChunks map_to_list
    (snapshot plainDigest asciiFields routesV1)
    (snapshot plainDigest asciiFields routesV2)
  ≡ₚ compareChunks map_to_list
       (snapshot plainDigest asciiFields routesV2)
       (snapshot plainDigest asciiFields routesV1).
Proof.
  apply (compareChunks_symmetric map_to_list).
  intros m. reflexivity.
Defined.

(** [DetectChanges_again] after a reload of the second version. *)
Lemma DetectChanges_again_witness :
  DetectChanges plainDigest asciiFields map_to_list (fileOf routesV2)
    {| FilePath := "routes.txt";
       Chunks := snapshot plainDigest asciiFields routesV2 |}
  = ({| FilePath := "routes.txt";
        Chunks := snapshot plainDigest asciiFields routesV2 |},
     ([], None)).
Proof.
  apply (DetectChanges_again plainDigest asciiFields map_to_list
           (λ m, reflexivity (map_to_list m))
           (fileOf routesV2) staleTable _
           (compareChunks map_to_list (Chunks staleTable)
              (snapshot plainDigest asciiFields routesV2))).
  left.
  apply (DetectChanges_readable plainDigest asciiFields map_to_list
           (λ m, reflexivity (map_to_list m))).
  reflexivity.
Defined.

(** [compareChunks_by_content] for the two versions of the file and the
    route that was edited. *)
Lemma compareChunks_by_content_witness :
  ("10.0.0.0/8" ∈ compareChunks map_to_list
                    (snapshot plainDigest asciiFields routesV1)
                    (snapshot plainDigest asciiFields routesV2) →
   Data <$> snapshot plainDigest asciiFields routesV1 !! "10.0.0.0/8"
   ≠ Data <$> snapshot plainDigest asciiFields routesV2 !! "10.0.0.0/8") ∧
  ((∀ x y, plainDigest x = plainDigest y → x = y) →
   Data <$> snapshot plainDigest asciiFields routesV1 !! "10.0.0.0/8"
   ≠ Data <$> snapshot plainDigest asciiFields routesV2 !! "10.0.0.0/8" →
   "10.0.0.0/8" ∈ compareChunks map_to_list
                    (snapshot plainDigest asciiFields routesV1)
                    (snapshot plainDigest asciiFields routesV2)).
Proof.
  apply (compareChunks_by_content plainDigest map_to_list
           (λ m, reflexivity (map_to_list m))).
  - apply scanAll_consistent. intros k c Hk. by rewrite lookup_empty in Hk.
  - apply scanAll_consistent. intros k c Hk. by rewrite lookup_empty in Hk.
Defined.

(** [DetectChanges_drops_removed] for the stale entry and the second
    version of the file. *)
Lemma DetectChanges_drops_removed_witness :
  is_Some (Chunks (DetectChanges plainDigest asciiFields map_to_list
                     (fileOf routesV2) staleTable).1 !! "192.168.0.0/16")
  ↔ "192.168.0.0/16" ∈ Destination <$> records plainDigest asciiFields routesV2.
Proof.
  apply (DetectChanges_drops_removed plainDigest asciiFields map_to_list
           (λ m, reflexivity (map_to_list m))
           (fileOf routesV2) staleTable routesV2).
  reflexivity.
Defined.

(** [watch_quiet_ends] for five events, two of them irrelevant. *)
Lemma watch_quiet_ends_witness :
  Notifier.calls
    (Notifier.watch mixedEvents (Notifier.NewFileWatcher "routes.txt" 500))
  = Notifier.quietEnds (Z.max 0 500)
      (filter (λ e, Notifier.relevant
                      (Notifier.fw (Notifier.NewFileWatcher "routes.txt" 500))
                      e = true)
         mixedEvents).
Proof.
  apply (watch_quiet_ends "routes.txt" 500 mixedEvents).
  cbn [Notifier.inOrder mixedEvents]. compute_done.
Defined.

(** [watch_ignores_irrelevant] for the same events. *)
Lemma watch_ignores_irrelevant_witness :
  Notifier.calls
    (Notifier.watch mixedEvents (Notifier.NewFileWatcher "routes.txt" 500))
  = Notifier.calls
      (Notifier.watch
         (filter (λ e, Notifier.relevant
                         (Notifier.fw
                            (Notifier.NewFileWatcher "routes.txt" 500))
                         e = true)
            mixedEvents)
         (Notifier.NewFileWatcher "routes.txt" 500)).
Proof.
  apply (watch_ignores_irrelevant "routes.txt" 500 mixedEvents).
  cbn [Notifier.inOrder mixedEvents]. compute_done.
Defined.

(** [debounce_spaced] for three events at least 500 ms apart. *)
Lemma debounce_spaced_witness :
  Notifier.calls
    (Notifier.watch spacedEvents (Notifier.NewFileWatcher "routes.txt" 500))
  = (λ e, Notifier.arrival e + Z.max 0 500) <$> spacedEvents.
Proof.
  apply (debounce_spaced "routes.txt" 500 spacedEvents).
  - compute_done.
  - intros [|[|[|i]]] a b Ha Hb; simplify_eq/=; lia.
Defined.

(** [onChange_report] for a reload of the second version. *)
Lemma onChange_report_witness :
  let rt' := {| FilePath := FilePath staleTable;
                Chunks := snapshot plainDigest asciiFields routesV2 |} in
  let changed := compareChunks map_to_list (Chunks staleTable)
                   (snapshot plainDigest asciiFields routesV2) in
  onChange plainDigest asciiFields map_to_list "1.2ms" (fileOf routesV2)
    staleTable =
    (rt',
     [LF +:+ "[File Change Detected] Detecting changes..." +:+ LF;
      loadedLine rt'] ++
     match changed with
     | [] => ["No changes detected (checked in " +:+ "1.2ms" +:+ ")" +:+ LF]
     | _ :: _ =>
         ["Found " +:+ pretty (length changed)
          +:+ " changed routes (detected in " +:+ "1.2ms" +:+ "):" +:+ LF]
         ++ ((λ k, "  - " +:+ k +:+ LF) <$> take 10 changed)
         ++ (if (10 <? length changed)%nat then
               ["  ... and " +:+ pretty (length changed - 10)%nat
                +:+ " more" +:+ LF]
             else [])
     end).
Proof.
  apply (onChange_report plainDigest asciiFields map_to_list
           (λ m, reflexivity (map_to_list m)) "1.2ms" (fileOf routesV2)
           staleTable routesV2).
  reflexivity.
Defined.

(** [onChange_unreadable] when the file is missing. *)
Lemma onChange_unreadable_witness :
  ∃ step cause,
    (missingFile (FilePath staleTable) = OpenFails cause ∧
     step = "failed to open file: " ∨
     (∃ lines, missingFile (FilePath staleTable)
               = Scanned lines (Some cause)) ∧
     step = "error reading file: ") ∧
    onChange plainDigest asciiFields map_to_list "1.2ms" missingFile
      staleTable =
      (staleTable,
       [LF +:+ "[File Change Detected] Detecting changes..." +:+ LF;
        "Error detecting changes: " +:+ "failed to reload routing table: "
        +:+ step +:+ cause +:+ LF]).
Proof.
  apply (onChange_unreadable plainDigest asciiFields map_to_list "1.2ms"
           missingFile staleTable).
  exact I.
Defined.

(** The report for twelve changed keys: ten are listed, two are counted. *)
Example reportChanged_twelve :
  reportChanged "3ms"
    ["a"; "b"; "c"; "d"; "e"; "f"; "g"; "h"; "i"; "j"; "k"; "l"]
  = ["Found 12 changed routes (detected in 3ms):" +:+ LF;
     "  - a" +:+ LF; "  - b" +:+ LF; "  - c" +:+ LF; "  - d" +:+ LF;
     "  - e" +:+ LF; "  - f" +:+ LF; "  - g" +:+ LF; "  - h" +:+ LF;
     "  - i" +:+ LF; "  - j" +:+ LF;
     "  ... and 2 more" +:+ LF].
Proof. by vm_compute. Qed.
